(** * edutask: the RSS feed component and the groups registry component

    A shallow embedding of
      - src/app/shared/rss-feed/rss.component.ts
      - src/app/+admin/admin-access-control/group-registry/groups-registry.component.ts
    together with the small part of the JavaScript and rxjs semantics
    these two components rely on. *)

From stdpp Require Import base strings list gmap.

Set Default Proof Using "Type".

(** ** JavaScript values and strings *)

Module Js.

(** The values a [string]-typed slot holds at run time: the type checker
    does not exclude [undefined] and [null].  A string is a sequence of
    code units; the model covers the code units below 256. *)
Inductive value : Type :=
| Undefined
| Null
| Str (s : string).

#[global] Instance value_eq_dec : EqDecision value.
Proof. solve_decision. Defined.

(** ToBoolean: [if (v)]. *)
Definition truthy (v : value) : bool :=
  match v with
  | Str s => negb (String.eqb s "")
  | _ => false
  end.

(** ToString: what a template literal or [+] on a string makes of [v]. *)
Definition to_string (v : value) : string :=
  match v with
  | Undefined => "undefined"
  | Null => "null"
  | Str s => s
  end.

(** [v != null] (loose inequality: false for [null] and [undefined]). *)
Definition not_nullish (v : value) : bool :=
  match v with
  | Str _ => true
  | _ => false
  end.

(** [a !== b] with a string on the left. *)
Definition strict_ne (a : string) (b : value) : bool :=
  match b with
  | Str s => negb (String.eqb a s)
  | _ => true
  end.

(** [s.substring(n)]: what is left after the first [n] code units. *)
Fixpoint drop (n : nat) (s : string) : string :=
  match n, s with
  | O, _ => s
  | S n', EmptyString => EmptyString
  | S n', String _ s' => drop n' s'
  end.

(** [s.substring(0, n)]. *)
Fixpoint take (n : nat) (s : string) : string :=
  match n, s with
  | O, _ => EmptyString
  | S n', EmptyString => EmptyString
  | S n', String c s' => String c (take n' s')
  end.

(** [s.indexOf(pat)], [None] standing for -1. *)
Fixpoint indexOf (pat s : string) : option nat :=
  if String.prefix pat s then Some 0
  else match s with
       | EmptyString => None
       | String _ s' => S <$> indexOf pat s'
       end.

(** [s.replace(pat, rep)] for a string pattern and a replacement text
    without [$]: the first occurrence is replaced, and only that one. *)
Definition replace (pat rep s : string) : string :=
  match indexOf pat s with
  | None => s
  | Some pos => take pos s +:+ rep +:+ drop (pos + String.length pat) s
  end.

(** WhiteSpace and LineTerminator code units below 256. *)
Definition is_space (c : Ascii.ascii) : bool :=
  let n := Ascii.nat_of_ascii c in
  (Nat.leb 9 n && Nat.leb n 13) || Nat.eqb n 32 || Nat.eqb n 160.

Fixpoint trimStart (s : string) : string :=
  match s with
  | EmptyString => EmptyString
  | String c s' => if is_space c then trimStart s' else s
  end.

Fixpoint trimEnd (s : string) : string :=
  match s with
  | EmptyString => EmptyString
  | String c s' =>
      match trimEnd s' with
      | EmptyString => if is_space c then EmptyString else String c EmptyString
      | r => String c r
      end
  end.

(** [s.trim()]. *)
Definition trim (s : string) : string := trimEnd (trimStart s).

(** [s] reads [pat] from position [n] on. *)
Definition occurs_at (pat s : string) (n : nat) : Prop :=
  ∃ pre post, s = pre +:+ pat +:+ post ∧ String.length pre = n.




End Js.

(** ** The RSS component *)

Module Rss.

(** core/cache/models/sort-options.model: a field and a direction. *)
Record SortOptions : Type := { field : Js.value; direction : Js.value }.

(** [formulateRoute(uuid, opensearch, sort, query)], statement by
    statement. *)
Definition formulateRoute (uuid opensearch : Js.value) (sort : SortOptions)
    (query : Js.value) : string :=
  let route := "search?format=atom" in
  let route :=
    if Js.truthy uuid then route +:+ "&scope=" +:+ Js.to_string uuid
    else route in
  let route :=
    if Js.truthy (direction sort) && Js.truthy (field sort)
    then route +:+ "&sort=" +:+ Js.to_string (field sort)
               +:+ "&sort_direction=" +:+ Js.to_string (direction sort)
    else route in
  let route :=
    if Js.truthy query then route +:+ "&query=" +:+ Js.to_string query
    else route +:+ "&query=*" in
  "/" +:+ Js.to_string opensearch +:+ "/" +:+ route.

(** The path as the interface description words it. *)
Definition scope_segment (uuid : Js.value) : string :=
  if Js.truthy uuid then "&scope=" +:+ Js.to_string uuid else "".

Definition sort_segment (sort : SortOptions) : string :=
  if Js.truthy (field sort) && Js.truthy (direction sort)
  then "&sort=" +:+ Js.to_string (field sort)
       +:+ "&sort_direction=" +:+ Js.to_string (direction sort)
  else "".

Definition query_param (query : Js.value) : string :=
  if Js.truthy query then Js.to_string query else "*".

Definition route_form (uuid opensearch : Js.value) (sort : SortOptions)
    (query : Js.value) : string :=
  "/" +:+ Js.to_string opensearch +:+ "/search?format=atom"
      +:+ scope_segment uuid +:+ sort_segment sort
      +:+ "&query=" +:+ query_param query.

(** *** The document head

    Modelled from the spec: the link head service
    (core/services/link-head.service) is not among the sources.  The
    interface description has it expose the feed links as document-level
    link tags, added on view activation and removed by exact selector
    match on view teardown.  A tag is the map of its attributes; the head
    keeps the tags in the order they were added. *)
Abbreviation LinkDefinition := (gmap string string).

Definition addTag (tag : LinkDefinition) (head : list LinkDefinition) :
    list LinkDefinition :=
  head ++ [tag].

(** An attribute selector [name='value']. *)
Definition parse_selector (sel : string) : option (string * string) :=
  match Js.indexOf "='" sel with
  | None => None
  | Some i =>
      let rest := Js.drop (i + 2) sel in
      match Js.indexOf "'" rest with
      | None => None
      | Some j =>
          if Nat.eqb (S j) (String.length rest)
          then Some (Js.take i sel, Js.take j rest)
          else None
      end
  end.

Definition matches (sel : string) (tag : LinkDefinition) : bool :=
  match parse_selector sel with
  | None => false
  | Some (name, v) => bool_decide (tag !! name = Some v)
  end.

Definition removeTag (sel : string) (head : list LinkDefinition) :
    list LinkDefinition :=
  List.filter (λ tag, negb (matches sel tag)) head.

(** *** The component *)

(** The object literal [{ href, type, rel, title }]. *)
Definition link (href type rel title : string) : LinkDefinition :=
  <["href" := href]> (<["type" := type]> (<["rel" := rel]>
    (<["title" := title]> ∅))).

Record State : Type := {
  route_s : option string;          (* route$ *)
  isEnabled_s : bool;               (* isEnabled$ *)
  uuid : Js.value;
  head : list LinkDefinition        (* document.head, through the service *)
}.

Definition initial (head0 : list LinkDefinition) : State :=
  {| route_s := None; isEnabled_s := false; uuid := Js.Undefined;
     head := head0 |}.

Definition with_head (f : list LinkDefinition → list LinkDefinition)
    (st : State) : State :=
  {| route_s := route_s st; isEnabled_s := isEnabled_s st; uuid := uuid st;
     head := f (head st) |}.

(** [addLinks(route)]. *)
Definition addLinks (route : string) (st : State) : State :=
  let st :=
    with_head (addTag (link route "application/atom+xml" "alternate"
                            "Sitewide Atom feed")) st in
  let route := Js.replace "format=atom" "format=rss" route in
  with_head (addTag (link route "application/rss+xml" "alternate"
                          "Sitewide RSS feed")) st.

(** [ngOnInit], first subscription: the 'websvc.opensearch.enable'
    property arrives with first value [v]. *)
Definition onEnable (v : Js.value) (st : State) : State :=
  {| route_s := route_s st;
     isEnabled_s := bool_decide (v = Js.Str "true");
     uuid := uuid st; head := head st |}.

(** [ngOnInit], innermost callback: the service context [url] has
    arrived, then the current [query], then the current [sort].
    [baseUrl] is [environment.rest.baseUrl]; [found] is what
    [getUUIDFromString(this.router.url)] returns. *)
Definition onSort (baseUrl : string) (found url query : Js.value)
    (sort : SortOptions) (st : State) : State :=
  let st :=
    {| route_s := route_s st; isEnabled_s := isEnabled_s st; uuid := found;
       head := head st |} in
  let route := baseUrl +:+ formulateRoute (uuid st) url sort query in
  let st := addLinks route st in
  let st :=
    with_head (addTag (link (baseUrl +:+ "/" +:+ Js.to_string url +:+ "/service")
                            "application/atom+xml" "search" "Dspace")) st in
  {| route_s := Some route; isEnabled_s := isEnabled_s st; uuid := uuid st;
     head := head st |}.

(** [ngOnDestroy]. *)
Definition ngOnDestroy (st : State) : State :=
  with_head (removeTag "rel='alternate'") st.


(** The tag for the OpenSearch description the innermost callback adds
    after the two feed links. *)
Definition search_tag (baseUrl : string) (url : Js.value) : LinkDefinition :=
  link (baseUrl +:+ "/" +:+ Js.to_string url +:+ "/service")
       "application/atom+xml" "search" "Dspace".

Definition is_alternate (tag : LinkDefinition) : bool :=
  bool_decide (tag !! "rel" = Some "alternate").

(** Teardown undoing exactly the two feed links of one activation on the
    head [head0]: what is left is [head0] and the search tag. *)
Definition teardown_frame (head0 : list LinkDefinition) (baseUrl : string)
    (found url query : Js.value) (sort : SortOptions) : Prop :=
  head (ngOnDestroy (onSort baseUrl found url query sort (initial head0)))
  = head0 ++ [search_tag baseUrl url].

End Rss.

(** ** rxjs: the combineLatest subscriber *)

Module Rx.

Section CombineLatest.
Context {A : Type}.

(** The subscriber's fields: one slot per source observable ([None] is
    the NONE marker of a source that has not emitted yet) and the number
    of sources still to respond. *)
Record CombineLatest : Type := {
  values : list (option A);
  toRespond : nat
}.

(** After the [len] sources have been collected and subscribed to. *)
Definition subscribed (len : nat) : CombineLatest :=
  {| values := replicate len None; toRespond := len |}.

(** [notifyNext]: source [outerIndex] emits [innerValue].  The result
    carries the copy of the slots handed to the destination, when there
    is one. *)
Definition notifyNext (outerIndex : nat) (innerValue : A)
    (c : CombineLatest) : CombineLatest * option (list (option A)) :=
  let oldVal := values c !! outerIndex in
  let toRespond' :=
    if Nat.eqb (toRespond c) 0 then 0
    else match oldVal with
         | Some None => toRespond c - 1
         | _ => toRespond c
         end in
  let values' := <[outerIndex := Some innerValue]> (values c) in
  ({| values := values'; toRespond := toRespond' |},
   if Nat.eqb toRespond' 0 then Some values' else None).
End CombineLatest.
Arguments CombineLatest : clear implicits.

(** The slots of a combineLatest subscriber that are still empty. *)
Fixpoint pending {A : Type} (vs : list (option A)) : nat :=
  match vs with
  | [] => 0
  | None :: vs' => S (pending vs')
  | Some _ :: vs' => pending vs'
  end.

End Rx.

(** ** The groups registry component *)

Module Groups.

(** *** Data *)

(** Modelled from the spec: the page-info model (core/shared/page-info.model)
    is not among the sources; the data model gives it a current page, a
    page size and a total number of elements. *)
Record PageInfo : Type := {
  pi_currentPage : nat;
  pi_pageSize : nat;
  pi_totalElements : nat
}.

Record PaginatedList (T : Type) : Type := {
  pageInfo : PageInfo;
  page : list T
}.
Arguments pageInfo {T} _.
Arguments page {T} _.

(** What the component reads of a remote-data object. *)
Record RemoteData (T : Type) : Type := {
  hasSucceeded : bool;
  payload : option T
}.
Arguments hasSucceeded {T} _.
Arguments payload {T} _.

(** What the component reads of a group. *)
Record Group : Type := {
  id : Js.value;
  name : Js.value;
  self : Js.value
}.

(** An entry of a page is a group, or nothing ([null], [undefined]). *)
Record GroupDtoModel : Type := {
  ableToDelete : bool;
  group : option Group
}.

Record PaginationComponentOptions : Type := {
  pagination_id : string;
  pageSize : nat;
  currentPage : nat
}.

(** [translateService.get(key, { param: value })]. *)
Record Translation : Type := {
  key : string;
  param : string;
  param_value : Js.value
}.

(** Modelled from the spec: [hasValue] of shared/empty.util is not among
    the sources; a value is there when it is neither [undefined] nor
    [null]. *)
Definition hasValue (v : Js.value) : bool :=
  match v with
  | Js.Undefined | Js.Null => false
  | Js.Str _ => true
  end.

(** *** The component and what surrounds it *)

Record Component : Type := {
  config : PaginationComponentOptions;
  groups_s : RemoteData (PaginatedList (option Group));          (* groups$ *)
  groupsDto_s : option (PaginatedList (option GroupDtoModel));   (* groupsDto$ *)
  pageInfoState_s : option PageInfo;                             (* pageInfoState$ *)
  currentSearchQuery : string;
  subs : list nat
}.

(** The inner observable a [switchMap] is switched to: the list it was
    built from and its combineLatest subscriber. *)
Record Inner : Type := {
  inner_id : nat;
  inner_groups : PaginatedList (option Group);
  inner_state : Rx.CombineLatest GroupDtoModel
}.

(** The three subscribers the component creates. *)
Inductive Subscriber : Type :=
| FetchSub                            (* search, first subscribe *)
| DeriveSub (inner : option Inner)    (* search, second subscribe *)
| DeleteSub (g : Group).              (* deleteGroup, after take(1) *)

(** The calls the component makes on its collaborators, and the backend
    calls the group service makes for it. *)
Inductive Call : Type :=
| NavigateToGroupRegistry
| SearchGroups (query : string) (current elementsPerPage : nat) (sub : nat)
| BackendSearch (query : string) (current elementsPerPage : nat)
| ClearGroupsRequests
| IsAuthorizedCanDelete (objectUrl : Js.value) (inner index : nat)
| DeleteGroup (g : Group) (sub : nat)
| NotifySuccess (title : Translation)
| NotifyError (title content : Translation)
| PatchQuery (query : string).

#[global] Instance Group_eq_dec : EqDecision Group.
Proof. solve_decision. Defined.
#[global] Instance Translation_eq_dec : EqDecision Translation.
Proof. solve_decision. Defined.
#[global] Instance Call_eq_dec : EqDecision Call.
Proof. solve_decision. Defined.

Record World : Type := {
  comp : Component;
  subscriptions : list (nat * Subscriber);   (* open, in subscription order *)
  nextId : nat;
  calls : list Call;
  cached : gset (string * nat * nat)         (* requests the service holds *)
}.

(** *** State updates *)

Definition with_comp (f : Component → Component) (w : World) : World :=
  {| comp := f (comp w); subscriptions := subscriptions w; nextId := nextId w;
     calls := calls w; cached := cached w |}.

Definition with_subscriptions
    (f : list (nat * Subscriber) → list (nat * Subscriber)) (w : World) : World :=
  {| comp := comp w; subscriptions := f (subscriptions w); nextId := nextId w;
     calls := calls w; cached := cached w |}.

Definition with_cached (f : gset (string * nat * nat) → gset (string * nat * nat))
    (w : World) : World :=
  {| comp := comp w; subscriptions := subscriptions w; nextId := nextId w;
     calls := calls w; cached := f (cached w) |}.

Definition call_all (cs : list Call) (w : World) : World :=
  {| comp := comp w; subscriptions := subscriptions w; nextId := nextId w;
     calls := calls w ++ cs; cached := cached w |}.

Definition call (c : Call) : World → World := call_all [c].

Definition set_currentPage (n : nat) : World → World :=
  with_comp (λ c,
    {| config := {| pagination_id := pagination_id (config c);
                    pageSize := pageSize (config c); currentPage := n |};
       groups_s := groups_s c; groupsDto_s := groupsDto_s c;
       pageInfoState_s := pageInfoState_s c;
       currentSearchQuery := currentSearchQuery c; subs := subs c |}).

Definition set_currentSearchQuery (q : string) : World → World :=
  with_comp (λ c,
    {| config := config c; groups_s := groups_s c; groupsDto_s := groupsDto_s c;
       pageInfoState_s := pageInfoState_s c;
       currentSearchQuery := q; subs := subs c |}).

Definition push_sub (sub : nat) : World → World :=
  with_comp (λ c,
    {| config := config c; groups_s := groups_s c; groupsDto_s := groupsDto_s c;
       pageInfoState_s := pageInfoState_s c;
       currentSearchQuery := currentSearchQuery c; subs := subs c ++ [sub] |}).

(** [groups$.next], [groupsDto$.next], [pageInfoState$.next]: the value a
    behaviour subject holds. *)
Definition set_groups (rd : RemoteData (PaginatedList (option Group))) :
    World → World :=
  with_comp (λ c,
    {| config := config c; groups_s := rd; groupsDto_s := groupsDto_s c;
       pageInfoState_s := pageInfoState_s c;
       currentSearchQuery := currentSearchQuery c; subs := subs c |}).

Definition set_groupsDto (v : PaginatedList (option GroupDtoModel)) :
    World → World :=
  with_comp (λ c,
    {| config := config c; groups_s := groups_s c; groupsDto_s := Some v;
       pageInfoState_s := pageInfoState_s c;
       currentSearchQuery := currentSearchQuery c; subs := subs c |}).

Definition set_pageInfoState (v : PageInfo) : World → World :=
  with_comp (λ c,
    {| config := config c; groups_s := groups_s c; groupsDto_s := groupsDto_s c;
       pageInfoState_s := Some v;
       currentSearchQuery := currentSearchQuery c; subs := subs c |}).

(** *** Subscriptions *)

Fixpoint lookup_sub (sub : nat) (l : list (nat * Subscriber)) : option Subscriber :=
  match l with
  | [] => None
  | (k, s) :: l' => if Nat.eqb k sub then Some s else lookup_sub sub l'
  end.

Definition subscribe (s : Subscriber) (w : World) : World :=
  {| comp := comp w; subscriptions := subscriptions w ++ [(nextId w, s)];
     nextId := S (nextId w); calls := calls w; cached := cached w |}.

Definition unsubscribe (sub : nat) : World → World :=
  with_subscriptions (List.filter (λ e, negb (Nat.eqb e.1 sub))).

Definition set_subscriber (sub : nat) (s : Subscriber) : World → World :=
  with_subscriptions
    (List.map (λ e, if Nat.eqb e.1 sub then (e.1, s) else e)).

(** *** The group service

    Modelled from the spec: the group data service
    (core/eperson/group-data.service) is not among the sources.  The
    search state machine has a force refresh invalidate any cached request
    before it queries again, and the fetch that follows go to the backend
    even for an unchanged query: the service answers a request it holds
    from its cache and sends any other one to the backend, which it then
    holds. *)
Definition searchGroups (query : string) (current elementsPerPage sub : nat)
    (w : World) : World :=
  let w := call (SearchGroups query current elementsPerPage sub) w in
  if bool_decide ((query, current, elementsPerPage) ∈ cached w) then w
  else with_cached (λ held, {[ (query, current, elementsPerPage) ]} ∪ held)
         (call (BackendSearch query current elementsPerPage) w).

Definition clearGroupsRequests (w : World) : World :=
  with_cached (λ _, ∅) (call ClearGroupsRequests w).

(** *** search: the derivation pipeline (second subscribe) *)

(** The authorization queries of one list, one per entry, in order. *)
Definition isAuthorized_calls (inner : nat) (groups : list (option Group)) :
    list Call :=
  imap (λ i group,
          IsAuthorizedCanDelete
            (match group with Some g => self g | None => Js.Undefined end)
            inner i) groups.

(** What [switchMap] does with a value of [groups$]: only a succeeded
    remote-data object gets through, its payload; the running inner
    observable is dropped for the combineLatest of the new list's
    authorization queries.  Reading [page] of a missing payload throws,
    which closes the subscription. *)
Definition deriveNext (sub : nat) (rd : RemoteData (PaginatedList (option Group)))
    (w : World) : World :=
  if hasSucceeded rd then
    match payload rd with
    | None => unsubscribe sub w
    | Some groups =>
        let inner := nextId w in
        let w :=
          {| comp := comp w; subscriptions := subscriptions w;
             nextId := S (nextId w); calls := calls w; cached := cached w |} in
        let w := call_all (isAuthorized_calls inner (page groups)) w in
        set_subscriber sub
          (DeriveSub (Some {| inner_id := inner; inner_groups := groups;
                              inner_state := Rx.subscribed (length (page groups)) |}))
          w
    end
  else w.

(** The [index]-th authorization query of the list [groups] answers
    [authorized]: the inner [map] builds the DTO, combineLatest takes it,
    and the outer [map] wraps what combineLatest hands on. *)
Definition composeNext (groups : PaginatedList (option Group)) (index : nat)
    (authorized : bool) (st : Rx.CombineLatest GroupDtoModel) :
    Rx.CombineLatest GroupDtoModel * option (PaginatedList (option GroupDtoModel)) :=
  match page groups !! index with
  | None => (st, None)
  | Some group =>
      let groupDtoModel := {| ableToDelete := authorized; group := group |} in
      let r := Rx.notifyNext index groupDtoModel st in
      (r.1, (λ dtos, {| pageInfo := pageInfo groups; page := dtos |}) <$> r.2)
  end.

(** The answers [(index, authorized)] of one list's queries, in the order
    they arrive; the composed lists emitted on the way, oldest first. *)
Fixpoint compose (groups : PaginatedList (option Group))
    (st : Rx.CombineLatest GroupDtoModel) (answers : list (nat * bool)) :
    list (PaginatedList (option GroupDtoModel)) :=
  match answers with
  | [] => []
  | (index, authorized) :: rest =>
      let r := composeNext groups index authorized st in
      match r.2 with
      | Some value => value :: compose groups r.1 rest
      | None => compose groups r.1 rest
      end
  end.

(** The subscriber of the pipeline: an answer for the running inner
    observable of subscription [sub]. *)
Definition onAuthorized (sub inner index : nat) (authorized : bool)
    (w : World) : World :=
  match lookup_sub sub (subscriptions w) with
  | Some (DeriveSub (Some running)) =>
      if Nat.eqb (inner_id running) inner then
        let r := composeNext (inner_groups running) index authorized
                   (inner_state running) in
        let w :=
          set_subscriber sub
            (DeriveSub (Some {| inner_id := inner_id running;
                                inner_groups := inner_groups running;
                                inner_state := r.1 |})) w in
        match r.2 with
        | Some value => set_pageInfoState (pageInfo value) (set_groupsDto value w)
        | None => w
        end
      else w
  | _ => w
  end.

(** *** search: the fetch (first subscribe) *)

Definition is_derive (e : nat * Subscriber) : bool :=
  match e.2 with
  | DeriveSub _ => true
  | _ => false
  end.

(** [groups$.next(rd)]: the subject keeps the value and hands it to its
    observers, which are the open derivation pipelines, oldest first. *)
Definition groups_next (rd : RemoteData (PaginatedList (option Group)))
    (w : World) : World :=
  let observers := (List.filter is_derive (subscriptions w)).*1 in
  foldl (λ w sub, deriveNext sub rd w) (set_groups rd w) observers.

(** The subscriber of [searchGroups(...)].  Reading [pageInfo] of a
    missing payload throws after [groups$.next] has run; an error thrown
    by a subscriber closes its subscription. *)
Definition onGroups (sub : nat) (groupsRD : RemoteData (PaginatedList (option Group)))
    (w : World) : World :=
  let w := groups_next groupsRD w in
  match payload groupsRD with
  | Some p => set_pageInfoState (pageInfo p) w
  | None => unsubscribe sub w
  end.

(** [search(data)], [query] being [data.query]. *)
Definition search (query : Js.value) (w : World) : World :=
  let w :=
    if Js.not_nullish query && Js.strict_ne (currentSearchQuery (comp w)) query
    then
      let w := call NavigateToGroupRegistry w in
      let w := set_currentSearchQuery (Js.to_string query) w in
      set_currentPage 1 w
    else w in
  let sub := nextId w in
  let w :=
    searchGroups (Js.trim (currentSearchQuery (comp w)))
      (currentPage (config (comp w))) (pageSize (config (comp w))) sub w in
  let w := subscribe FetchSub w in
  let w := push_sub sub w in
  let sub := nextId w in
  let w := subscribe (DeriveSub None) w in
  (* a behaviour subject hands the value it holds to a new observer *)
  let w := deriveNext sub (groups_s (comp w)) w in
  push_sub sub w.

(** *** The other methods *)

Definition messagePrefix : string := "admin.access-control.groups.".

(** [forceUpdateGroup()]. *)
Definition forceUpdateGroup (w : World) : World :=
  let w := clearGroupsRequests w in
  search (Js.Str (currentSearchQuery (comp w))) w.

(** [deleteGroup(group)] up to its [subscribe]. *)
Definition deleteGroup (g : Group) (w : World) : World :=
  if hasValue (id g) then
    let w := call (DeleteGroup g (nextId w)) w in
    subscribe (DeleteSub g) w
  else w.

(** The subscriber of [deleteGroup]: the backend answers
    [[success, optionalErrorMessage]]. *)
Definition onDeleted (g : Group) (success : bool) (optionalErrorMessage : Js.value)
    (w : World) : World :=
  if success then
    let w :=
      call (NotifySuccess
              {| key := messagePrefix +:+ "notification.deleted.success";
                 param := "name"; param_value := name g |}) w in
    forceUpdateGroup w
  else
    call (NotifyError
            {| key := messagePrefix +:+ "notification.deleted.failure.title";
               param := "name"; param_value := name g |}
            {| key := messagePrefix +:+ "notification.deleted.failure.content";
               param := "cause"; param_value := optionalErrorMessage |}) w.

Definition ngOnInit (w : World) : World :=
  search (Js.Str (currentSearchQuery (comp w))) w.

Definition onPageChange (event : nat) (w : World) : World :=
  let w := set_currentPage event w in
  search (Js.Str (currentSearchQuery (comp w))) w.

Definition clearFormAndResetResult (w : World) : World :=
  let w := call (PatchQuery "") w in
  search (Js.Str "") w.

(** [cleanupSubscribes()]: every entry of [subs] is unsubscribed. *)
Definition cleanupSubscribes (w : World) : World :=
  foldl (λ w sub, unsubscribe sub w) w (subs (comp w)).

Definition ngOnDestroy (w : World) : World := cleanupSubscribes w.

(** The component as its constructor and field initialisers leave it. *)
Definition constructed : World :=
  {| comp :=
       {| config := {| pagination_id := "groups-list-pagination";
                       pageSize := 5; currentPage := 1 |};
          groups_s := {| hasSucceeded := false; payload := None |};
          groupsDto_s := None;
          pageInfoState_s := None;
          currentSearchQuery := "";
          subs := [] |};
     subscriptions := []; nextId := 0; calls := []; cached := ∅ |}.

(** *** What happens to the component *)

(** What arrives from outside for an open subscription. *)
Inductive Event : Type :=
| GroupsArrive (sub : nat) (groupsRD : RemoteData (PaginatedList (option Group)))
| Authorized (sub inner index : nat) (authorized : bool)
| Deleted (sub : nat) (success : bool) (optionalErrorMessage : Js.value).

Definition deliver (e : Event) (w : World) : World :=
  match e with
  | GroupsArrive sub groupsRD =>
      match lookup_sub sub (subscriptions w) with
      | Some FetchSub => onGroups sub groupsRD w
      | _ => w
      end
  | Authorized sub inner index authorized =>
      onAuthorized sub inner index authorized w
  | Deleted sub success optionalErrorMessage =>
      match lookup_sub sub (subscriptions w) with
      | Some (DeleteSub g) =>
          (* take(1): the value is handed on, then the subscription ends *)
          unsubscribe sub (onDeleted g success optionalErrorMessage w)
      | _ => w
      end
  end.

(** The methods the view and the framework call. *)
Inductive Step : Type :=
| NgOnInit
| OnPageChange (event : nat)
| SearchFor (query : Js.value)
| DeleteGroupOf (g : Group)
| ForceUpdateGroup
| ClearFormAndResetResult
| NgOnDestroy
| Deliver (e : Event).

Definition step (a : Step) (w : World) : World :=
  match a with
  | NgOnInit => ngOnInit w
  | OnPageChange event => onPageChange event w
  | SearchFor query => search query w
  | DeleteGroupOf g => deleteGroup g w
  | ForceUpdateGroup => forceUpdateGroup w
  | ClearFormAndResetResult => clearFormAndResetResult w
  | NgOnDestroy => ngOnDestroy w
  | Deliver e => deliver e w
  end.

Definition run (steps : list Step) (w : World) : World :=
  foldl (λ w a, step a w) w steps.

(** *** For the statements *)

(** The subscriber after the answers. *)
Fixpoint composed (groups : PaginatedList (option Group))
    (st : Rx.CombineLatest GroupDtoModel) (answers : list (nat * bool)) :
    Rx.CombineLatest GroupDtoModel :=
  match answers with
  | [] => st
  | (index, authorized) :: rest =>
      composed groups (composeNext groups index authorized st).1 rest
  end.

(** What holds of a subscriber for the list [groups] once the answers
    [seen] have arrived. *)
Definition composing (groups : PaginatedList (option Group))
    (seen : list (nat * bool)) (st : Rx.CombineLatest GroupDtoModel) : Prop :=
  length (Rx.values st) = length (page groups)
  ∧ Rx.toRespond st = Rx.pending (Rx.values st)
  ∧ (∀ i d, Rx.values st !! i = Some (Some d) →
       ∃ b g, (i, b) ∈ seen ∧ page groups !! i = Some g
              ∧ d = {| ableToDelete := b; group := g |})
  ∧ (∀ i b, (i, b) ∈ seen → i < length (page groups) →
       ∃ d, Rx.values st !! i = Some (Some d)).

(** The list [value] wraps the list [groups] entry by entry and in order,
    with answers taken from [seen]. *)
Definition wraps (groups : PaginatedList (option Group)) (seen : list (nat * bool))
    (value : PaginatedList (option GroupDtoModel)) : Prop :=
  pageInfo value = pageInfo groups
  ∧ length (page value) = length (page groups)
  ∧ ∀ i g, page groups !! i = Some g →
      ∃ b, (i, b) ∈ seen
           ∧ page value !! i = Some (Some {| ableToDelete := b; group := g |}).

Definition is_authorization (c : Call) : bool :=
  match c with
  | IsAuthorizedCanDelete _ _ _ => true
  | _ => false
  end.

(** The last answer of query [i] among [answers]. *)
Fixpoint latest (answers : list (nat * bool)) (i : nat) : option bool :=
  match answers with
  | [] => None
  | (j, b) :: rest =>
      match latest rest i with
      | Some b' => Some b'
      | None => if Nat.eqb j i then Some b else None
      end
  end.

(** The answers that belong to a query of a list of [n] groups. *)
Definition of_a_query (n : nat) (answers : list (nat * bool)) : list (nat * bool) :=
  List.filter (λ a, Nat.ltb a.1 n) answers.

(** A join: once every query of the list has answered, one composed list
    comes out, with one entry per group. *)
Definition joined (groups : PaginatedList (option Group)) (answers : list (nat * bool)) :
    Prop :=
  (∀ i, i < length (page groups) → ∃ b, (i, b) ∈ answers) →
  ∃ value,
    compose groups (Rx.subscribed (length (page groups))) answers = [value]
    ∧ length (page value) = length (page groups).

(** Each slot holds the DTO of its group with the latest answer. *)
Definition up_to_date (groups : PaginatedList (option Group)) (seen : list (nat * bool))
    (st : Rx.CombineLatest GroupDtoModel) : Prop :=
  length (Rx.values st) = length (page groups)
  ∧ ∀ i g, page groups !! i = Some g →
      Rx.values st !! i
      = Some ((λ b, {| ableToDelete := b; group := g |}) <$> latest seen i).

(** An open subscription is in order when its id has been handed out, when
    it is kept in [subs] (or in [extra], on its way there) unless it is the
    subscription of a deletion, and when its running inner observable has an
    id that has been handed out. *)
Definition entry_ok (n : nat) (kept : list nat) (e : nat * Subscriber) : Prop :=
  e.1 < n
  ∧ match e.2 with
    | DeleteSub _ => True
    | _ => e.1 ∈ kept
    end
  ∧ match e.2 with
    | DeriveSub (Some running) => inner_id running < n
    | _ => True
    end.

Definition in_order (extra : list nat) (w : World) : Prop :=
  NoDup (subscriptions w).*1
  ∧ Forall (entry_ok (nextId w) (subs (comp w) ++ extra)) (subscriptions w).

(** Whatever is open under the id [sub] is a derivation pipeline. *)
Definition derive_only (w : World) (sub : nat) : Prop :=
  ∀ s, lookup_sub sub (subscriptions w) = Some s → ∃ x, s = DeriveSub x.

(** The inner observable [switchMap] starts for the list [groups]. *)
Definition started (groups : PaginatedList (option Group)) (inner : nat) : Inner :=
{| inner_id := inner; inner_groups := groups;
   inner_state := Rx.subscribed (length (page groups)) |}.

(** Every open derivation pipeline runs on a list with an empty page. *)
Definition idle (w : World) : Prop :=
  ∀ sub x, lookup_sub sub (subscriptions w) = Some (DeriveSub x) →
    ∃ running, x = Some running ∧ page (inner_groups running) = [].

End Groups.

(** * Properties *)

(** ** Strings *)

#[local] Arguments String.append !_ _ / : simpl nomatch.

Lemma append_assoc (a b c : string) : (a +:+ b) +:+ c = a +:+ b +:+ c.
Proof. induction a as [|x a IH]; simpl; [done|]. by rewrite IH. Qed.

Lemma append_nil_r (a : string) : a +:+ "" = a.
Proof. induction a as [|x a IH]; simpl; [done|]. by rewrite IH. Qed.

Lemma length_append (a b : string) :
  String.length (a +:+ b) = String.length a + String.length b.
Proof. induction a as [|x a IH]; simpl; [done|]. by rewrite IH. Qed.

Lemma take_append (a b : string) : Js.take (String.length a) (a +:+ b) = a.
Proof. induction a as [|x a IH]; simpl; [by destruct b|]. by rewrite IH. Qed.

Lemma drop_append (a b : string) : Js.drop (String.length a) (a +:+ b) = b.
Proof. induction a as [|x a IH]; simpl; done. Qed.

Lemma take_drop (n : nat) (s : string) : Js.take n s +:+ Js.drop n s = s.
Proof.
  revert s. induction n as [|n IH]; intros [|x s]; simpl; try done.
  by rewrite IH.
Qed.

Lemma append_inj_length (a a' b b' : string) :
  String.length a = String.length a' → a +:+ b = a' +:+ b' → a = a' ∧ b = b'.
Proof.
  revert a'. induction a as [|x a IH]; intros [|x' a'] Hlen Heq;
    simpl in *; try done.
  injection Hlen as Hlen. injection Heq as -> Heq.
  by destruct (IH a' Hlen Heq) as [-> ->].
Qed.

Lemma prefix_append (p r : string) : String.prefix p (p +:+ r) = true.
Proof.
  induction p as [|x p IH]; simpl; [by destruct r|].
  destruct (Ascii.ascii_dec x x); [done|congruence].
Qed.

Lemma prefix_inv (p s : string) :
  String.prefix p s = true → s = p +:+ Js.drop (String.length p) s.
Proof.
  revert s. induction p as [|x p IH]; intros s Hp; simpl; [done|].
  destruct s as [|y s]; simpl in Hp; [done|].
  destruct (Ascii.ascii_dec x y) as [->|]; [|done].
  simpl. f_equal. by apply IH.
Qed.
Lemma indexOf_unfold (pat s : string) :
  Js.indexOf pat s =
    if String.prefix pat s then Some 0
    else match s with
         | EmptyString => None
         | String _ s' => S <$> Js.indexOf pat s'
         end.
Proof. by destruct s. Qed.

Lemma indexOf_Some (pat s : string) (n : nat) :
  Js.indexOf pat s = Some n →
  s = Js.take n s +:+ pat +:+ Js.drop (n + String.length pat) s
  ∧ String.length (Js.take n s) = n
  ∧ ∀ k, Js.occurs_at pat s k → n ≤ k.
Proof.
  revert n. induction s as [|c s IH]; intros n; rewrite indexOf_unfold;
    destruct (String.prefix pat _) eqn:Hp; try done.
  - intros [= <-]. split; [|split; [done|lia]]. by apply prefix_inv in Hp.
  - intros [= <-]. split; [|split; [done|lia]]. by apply prefix_inv in Hp.
  - destruct (Js.indexOf pat s) as [m|] eqn:Hm; [|done].
    intros [= <-]. destruct (IH m eq_refl) as (Hs & Hlen & Hmin).
    split; [simpl; by f_equal|]. split; [simpl; by f_equal|].
    intros k (pre & post & Heq & Hk). destruct pre as [|x pre]; simpl in Heq, Hk.
    + rewrite Heq, prefix_append in Hp. done.
    + injection Heq as -> Heq. subst k.
      apply le_n_S, Hmin. by exists pre, post.
Qed.

Lemma indexOf_None (pat s : string) :
  Js.indexOf pat s = None → ∀ k, ¬ Js.occurs_at pat s k.
Proof.
  induction s as [|c s IH]; rewrite indexOf_unfold;
    destruct (String.prefix pat _) eqn:Hp; try done.
  - intros _ k (pre & post & Heq & _).
    destruct pre; simpl in Heq; [|done]. by destruct pat.
  - destruct (Js.indexOf pat s) as [m|] eqn:Hm; [done|].
    intros _ k (pre & post & Heq & Hk). destruct pre as [|x pre]; simpl in Heq, Hk.
    + rewrite Heq, prefix_append in Hp. done.
    + injection Heq as -> Heq. apply (IH eq_refl (String.length pre)).
      by exists pre, post.
Qed.

Lemma replace_first (pat rep pre post : string) :
  (∀ k, Js.occurs_at pat (pre +:+ pat +:+ post) k → String.length pre ≤ k) →
  Js.replace pat rep (pre +:+ pat +:+ post) = pre +:+ rep +:+ post.
Proof.
  intros Hfirst. unfold Js.replace.
  destruct (Js.indexOf pat (pre +:+ pat +:+ post)) as [n|] eqn:Hn.
  - destruct (indexOf_Some _ _ _ Hn) as (Hs & Hlen & Hmin).
    assert (n = String.length pre) as Hnpre.
    { apply Nat.le_antisymm.
      - apply Hmin. by exists pre, post.
      - apply Hfirst. eexists _, _. split; [exact Hs|exact Hlen]. }
    symmetry in Hs. apply append_inj_length in Hs as [Hpre Hrest]; [|lia].
    apply append_inj_length in Hrest as [_ Hpost]; [|done].
    by rewrite Hpre, Hpost.
  - exfalso. apply (indexOf_None _ _ Hn (String.length pre)). by exists pre, post.
Qed.

Lemma replace_absent (pat rep s : string) :
  (∀ k, ¬ Js.occurs_at pat s k) → Js.replace pat rep s = s.
Proof.
  intros Hno. unfold Js.replace.
  destruct (Js.indexOf pat s) as [n|] eqn:Hn; [|done].
  destruct (indexOf_Some _ _ _ Hn) as (Hs & Hlen & _).
  exfalso. apply (Hno n). eexists _, _. split; [exact Hs|exact Hlen].
Qed.

(** ** The RSS component: the feed route *)

(** C3: for uuid "abc", service "svc", sort by "score" descending and an
    empty query, [formulateRoute] returns exactly
    "/svc/search?format=atom&scope=abc&sort=score&sort_direction=desc&query=*". *)
Theorem formulateRoute_abc_svc_score_desc :
  Rss.formulateRoute (Js.Str "abc") (Js.Str "svc")
    {| Rss.field := Js.Str "score"; Rss.direction := Js.Str "desc" |} (Js.Str "")
  = "/svc/search?format=atom&scope=abc&sort=score&sort_direction=desc&query=*".
Proof. reflexivity. Qed.

(** C4: for every uuid, service, sort options and query, [formulateRoute]
    returns /<service>/search?format=atom, then the scope segment, then the
    sort segments, then the query parameter; the scope segment is there
    exactly when there is a uuid, the sort segments exactly when there are a
    field and a direction, and the query parameter is the query, or "*" for
    an empty one. *)
Theorem formulateRoute_form (uuid opensearch query : Js.value) (sort : Rss.SortOptions) :
  Rss.formulateRoute uuid opensearch sort query
  = "/" +:+ Js.to_string opensearch +:+ "/search?format=atom"
        +:+ Rss.scope_segment uuid +:+ Rss.sort_segment sort
        +:+ "&query=" +:+ Rss.query_param query
  ∧ (Js.truthy uuid = true → Rss.scope_segment uuid = "&scope=" +:+ Js.to_string uuid)
  ∧ (Js.truthy uuid = false → Rss.scope_segment uuid = "")
  ∧ (Js.truthy (Rss.field sort) = true → Js.truthy (Rss.direction sort) = true →
     Rss.sort_segment sort
     = "&sort=" +:+ Js.to_string (Rss.field sort)
       +:+ "&sort_direction=" +:+ Js.to_string (Rss.direction sort))
  ∧ (Js.truthy (Rss.field sort) = false ∨ Js.truthy (Rss.direction sort) = false →
     Rss.sort_segment sort = "")
  ∧ (Js.truthy query = true → Rss.query_param query = Js.to_string query)
  ∧ (Js.truthy query = false → Rss.query_param query = "*").
Proof.
  split.
  - unfold Rss.formulateRoute, Rss.scope_segment, Rss.sort_segment, Rss.query_param.
    destruct (Js.truthy uuid), (Js.truthy (Rss.direction sort)),
      (Js.truthy (Rss.field sort)), (Js.truthy query); simpl;
      rewrite ?append_assoc; simpl; rewrite ?append_assoc; reflexivity.
  - unfold Rss.scope_segment, Rss.sort_segment, Rss.query_param.
    repeat split.
    + by intros ->.
    + by intros ->.
    + by intros -> ->.
    + intros [-> | ->]; [done|]. by destruct (Js.truthy (Rss.field sort)).
    + by intros ->.
    + by intros ->.
Qed.

Lemma formulateRoute_form_witness :
  Rss.formulateRoute Js.Undefined (Js.Str "svc")
    {| Rss.field := Js.Str "dc.title"; Rss.direction := Js.Str "ASC" |} (Js.Str "tea")
  = "/svc/search?format=atom&sort=dc.title&sort_direction=ASC&query=tea".
Proof.
  destruct (formulateRoute_form Js.Undefined (Js.Str "svc") (Js.Str "tea")
              {| Rss.field := Js.Str "dc.title"; Rss.direction := Js.Str "ASC" |})
    as (Hroute & _ & Hscope & Hsort & _ & Hquery & _).
  rewrite Hroute, (Hscope eq_refl), (Hsort eq_refl eq_refl), (Hquery eq_refl).
  reflexivity.
Defined.

(** ** The RSS component: the head tags *)

Lemma head_addLinks (route : string) (st : Rss.State) :
  Rss.head (Rss.addLinks route st)
  = Rss.head st
    ++ [Rss.link route "application/atom+xml" "alternate" "Sitewide Atom feed";
        Rss.link (Js.replace "format=atom" "format=rss" route)
                 "application/rss+xml" "alternate" "Sitewide RSS feed"].
Proof. unfold Rss.addLinks, Rss.with_head, Rss.addTag. simpl. by rewrite <- app_assoc. Qed.

(** C5: [addLinks] registers the Atom route as given and, next to it, the
    RSS route, which is the Atom route with its first "format=atom" replaced
    by "format=rss" and every other code unit kept (the Atom route itself
    when it has no "format=atom"). *)
Theorem addLinks_rss_route (route : string) (st : Rss.State) :
  ∃ rssRoute,
    Rss.head (Rss.addLinks route st)
    = Rss.head st
      ++ [Rss.link route "application/atom+xml" "alternate" "Sitewide Atom feed";
          Rss.link rssRoute "application/rss+xml" "alternate" "Sitewide RSS feed"]
    ∧ (∀ pre post,
         route = pre +:+ "format=atom" +:+ post →
         (∀ k, Js.occurs_at "format=atom" route k → String.length pre ≤ k) →
         rssRoute = pre +:+ "format=rss" +:+ post)
    ∧ ((∀ k, ¬ Js.occurs_at "format=atom" route k) → rssRoute = route).
Proof.
  exists (Js.replace "format=atom" "format=rss" route).
  split; [apply head_addLinks|]. split.
  - intros pre post -> Hfirst. by apply replace_first.
  - apply replace_absent.
Qed.

Lemma addLinks_rss_route_witness :
  ∃ rssRoute,
    Rss.head (Rss.addLinks "http://h/svc/search?format=atom&query=format=atom"
                (Rss.initial []))
    = [Rss.link "http://h/svc/search?format=atom&query=format=atom"
                "application/atom+xml" "alternate" "Sitewide Atom feed";
       Rss.link rssRoute "application/rss+xml" "alternate" "Sitewide RSS feed"]
    ∧ rssRoute = "http://h/svc/search?format=rss&query=format=atom".
Proof.
  destruct (addLinks_rss_route "http://h/svc/search?format=atom&query=format=atom"
              (Rss.initial [])) as (rssRoute & Hhead & Hfirst & _).
  exists rssRoute. split; [exact Hhead|].
  apply (Hfirst "http://h/svc/search?" "&query=format=atom"); [reflexivity|].
  exact (proj2 (proj2 (indexOf_Some "format=atom"
           "http://h/svc/search?format=atom&query=format=atom" 20 eq_refl))).
Defined.

Lemma matches_alternate (tag : gmap string string) :
  Rss.matches "rel='alternate'" tag = Rss.is_alternate tag.
Proof. reflexivity. Qed.

Lemma is_alternate_link (href type rel title : string) :
  Rss.is_alternate (Rss.link href type rel title) = bool_decide (rel = "alternate").
Proof.
  unfold Rss.is_alternate, Rss.link.
  rewrite lookup_insert_ne, lookup_insert_ne, lookup_insert_eq by done.
  apply bool_decide_ext. naive_solver.
Qed.

Lemma filter_all {A : Type} (f : A → bool) (l : list A) :
  Forall (λ x, f x = true) l → List.filter f l = l.
Proof. induction 1 as [|x l Hx _ IH]; simpl; [done|]. by rewrite Hx, IH. Qed.

Lemma head_onSort (baseUrl : string) (found url query : Js.value)
    (sort : Rss.SortOptions) (st : Rss.State) :
  let route := baseUrl +:+ Rss.formulateRoute found url sort query in
  Rss.head (Rss.onSort baseUrl found url query sort st)
  = Rss.head st
    ++ [Rss.link route "application/atom+xml" "alternate" "Sitewide Atom feed";
        Rss.link (Js.replace "format=atom" "format=rss" route)
                 "application/rss+xml" "alternate" "Sitewide RSS feed";
        Rss.search_tag baseUrl url].
Proof.
  unfold Rss.onSort, Rss.search_tag. cbn [Rss.head Rss.with_head Rss.uuid].
  rewrite head_addLinks. unfold Rss.addTag. cbn [Rss.head].
  by rewrite <- app_assoc.
Qed.

(** C9, as the code has it: activation adds the Atom link with type
    "application/atom+xml" and the RSS link with type "application/rss+xml",
    both with rel "alternate", and after them a rel "search" tag; teardown
    removes every tag of the head whose rel is "alternate", the component's
    own and any other, and keeps the remaining tags as they are and in their
    order.  On a head without other alternate links what is left is that
    head and the search tag. *)
Theorem head_tags_activation_teardown (baseUrl : string) (found url query : Js.value)
    (sort : Rss.SortOptions) (st : Rss.State) (head0 : list (gmap string string)) :
  (let route := baseUrl +:+ Rss.formulateRoute found url sort query in
   Rss.head (Rss.onSort baseUrl found url query sort st)
   = Rss.head st
     ++ [Rss.link route "application/atom+xml" "alternate" "Sitewide Atom feed";
         Rss.link (Js.replace "format=atom" "format=rss" route)
                  "application/rss+xml" "alternate" "Sitewide RSS feed";
         Rss.search_tag baseUrl url])
  ∧ Rss.head (Rss.ngOnDestroy st)
    = List.filter (λ tag, negb (Rss.is_alternate tag)) (Rss.head st)
  ∧ (∀ tag, tag ∈ Rss.head (Rss.ngOnDestroy st)
            ↔ tag ∈ Rss.head st ∧ tag !! "rel" ≠ Some "alternate")
  ∧ (Forall (λ tag, tag !! "rel" ≠ Some "alternate") head0 →
     Rss.teardown_frame head0 baseUrl found url query sort).
Proof.
  assert (∀ st', Rss.head (Rss.ngOnDestroy st')
                 = List.filter (λ tag, negb (Rss.is_alternate tag)) (Rss.head st'))
    as Hdestroy by done.
  split; [apply head_onSort|]. split; [apply Hdestroy|]. split.
  - intros tag. rewrite Hdestroy, list_elem_of_In, filter_In, <- list_elem_of_In.
    unfold Rss.is_alternate. rewrite negb_true_iff, bool_decide_eq_false. done.
  - intros Hnone. unfold Rss.teardown_frame.
    rewrite Hdestroy, head_onSort. cbn [Rss.initial Rss.head].
    rewrite List.filter_app, filter_all.
    + unfold Rss.search_tag. cbn [List.filter]. by rewrite !is_alternate_link.
    + eapply Forall_impl; [exact Hnone|].
      intros tag Htag. unfold Rss.is_alternate.
      by rewrite negb_true_iff, bool_decide_eq_false.
Qed.

Lemma head_tags_activation_teardown_witness :
  Rss.teardown_frame
    [Rss.link "/opensearch.xml" "application/opensearchdescription+xml" "search" "site"]
    "http://h" Js.Undefined (Js.Str "svc") (Js.Str "")
    {| Rss.field := Js.Undefined; Rss.direction := Js.Undefined |}.
Proof.
  apply (head_tags_activation_teardown "http://h" Js.Undefined (Js.Str "svc") (Js.Str "")
           {| Rss.field := Js.Undefined; Rss.direction := Js.Undefined |}
           (Rss.initial [])).
  repeat constructor. vm_compute. discriminate.
Defined.

(** C9 as it is stated fails: an alternate link that was in the head before
    the component came (here a translation of the page) is removed by the
    teardown as well. *)
Lemma teardown_removes_foreign_alternate_link :
  ¬ Rss.teardown_frame
      [<["rel" := "alternate"]> (<["hreflang" := "fr"]> (<["href" := "/fr"]> ∅))]
      "http://h" Js.Undefined (Js.Str "svc") (Js.Str "")
      {| Rss.field := Js.Undefined; Rss.direction := Js.Undefined |}.
Proof.
  unfold Rss.teardown_frame. intros H.
  apply (f_equal length) in H. vm_compute in H. discriminate.
Qed.

(** ** The groups registry component *)

Import Groups.

(** ** combineLatest *)

Lemma pending_replicate {A : Type} (n : nat) : Rx.pending (replicate n (@None A)) = n.
Proof. induction n as [|n IH]; simpl; [done|]. by rewrite IH. Qed.

Lemma pending_insert_empty {A : Type} (vs : list (option A)) (i : nat) (v : A) :
  vs !! i = Some None → Rx.pending vs = S (Rx.pending (<[i := Some v]> vs)).
Proof.
  revert i. induction vs as [|x vs IH]; intros [|i] Hi; simpl in *; try done.
  - by injection Hi as ->.
  - destruct x; [by apply IH|]. f_equal. by apply IH.
Qed.

Lemma pending_insert_full {A : Type} (vs : list (option A)) (i : nat) (v d : A) :
  vs !! i = Some (Some d) → Rx.pending (<[i := Some v]> vs) = Rx.pending vs.
Proof.
  revert i. induction vs as [|x vs IH]; intros [|i] Hi; simpl in *; try done.
  - by injection Hi as ->.
  - destruct x; [by apply IH|]. f_equal. by apply IH.
Qed.

Lemma pending_zero {A : Type} (vs : list (option A)) :
  Rx.pending vs = 0 ↔ ∀ i, i < length vs → ∃ d, vs !! i = Some (Some d).
Proof.
  induction vs as [|x vs IH]; simpl.
  - split; [intros _ i Hi; lia|done].
  - destruct x as [d|].
    + rewrite IH. split.
      * intros H [|i] Hi; simpl; [by exists d|]. apply H. lia.
      * intros H i Hi. apply (H (S i)). lia.
    + split; [done|]. intros H. destruct (H 0) as [d Hd]; [lia|done].
Qed.

(** ** search: the derivation *)

Lemma composing_subscribed (groups : PaginatedList (option Group)) :
  composing groups [] (Rx.subscribed (length (page groups))).
Proof.
  unfold composing, Rx.subscribed. cbn [Rx.values Rx.toRespond].
  rewrite length_replicate, pending_replicate. repeat split; [|intros i b Hi; inversion Hi].
  intros i d Hd. apply lookup_replicate in Hd as [? _]. done.
Qed.

Lemma composing_step (groups : PaginatedList (option Group)) (seen : list (nat * bool))
    (st : Rx.CombineLatest GroupDtoModel) (i : nat) (b : bool) :
  composing groups seen st →
  composing groups (seen ++ [(i, b)]) (composeNext groups i b st).1.
Proof.
  intros (Hlen & Hcount & Hfull & Hseen). unfold composeNext.
  destruct (page groups !! i) as [g|] eqn:Hg; cbn [fst].
  - assert (i < length (Rx.values st)) as Hi
      by (rewrite Hlen; by eapply lookup_lt_Some).
    destruct (lookup_lt_is_Some_2 _ _ Hi) as [old Hold].
    unfold Rx.notifyNext, composing. cbn [fst Rx.values Rx.toRespond].
    rewrite Hold. split; [by rewrite length_insert|]. split; [|split].
    + destruct (Nat.eqb_spec (Rx.toRespond st) 0) as [Hz|Hnz].
      * rewrite Hz in Hcount. symmetry in Hcount.
        destruct (proj1 (pending_zero _) Hcount i Hi) as [d Hd].
        by rewrite (pending_insert_full _ _ _ d).
      * destruct old as [d|].
        -- by rewrite (pending_insert_full _ _ _ d).
        -- rewrite Hcount,
             (pending_insert_empty _ i {| ableToDelete := b; group := g |}) by done.
           lia.
    + intros j d Hj. destruct (decide (j = i)) as [->|Hne].
      * rewrite list_lookup_insert_eq in Hj by done. injection Hj as <-.
        exists b, g. split; [|done]. apply elem_of_app. right. by apply list_elem_of_singleton.
      * rewrite list_lookup_insert_ne in Hj by done.
        destruct (Hfull j d Hj) as (b' & g' & Hin & Hg' & ->).
        exists b', g'. split; [|done]. apply elem_of_app. by left.
    + intros j b' Hin Hj. destruct (decide (j = i)) as [->|Hne].
      * eexists. by apply list_lookup_insert_eq.
      * rewrite list_lookup_insert_ne by done.
        apply elem_of_app in Hin as [Hin|Hin]; [by eapply Hseen|].
        apply list_elem_of_singleton in Hin. congruence.
  - split; [done|]. split; [done|]. split.
    + intros j d Hj. destruct (Hfull j d Hj) as (b' & g' & Hin & Hg' & ->).
      exists b', g'. split; [|done]. apply elem_of_app. by left.
    + intros j b' Hin Hj. apply elem_of_app in Hin as [Hin|Hin]; [by eapply Hseen|].
      apply list_elem_of_singleton in Hin. injection Hin as -> ->.
      apply lookup_ge_None in Hg. lia.
Qed.

Lemma composeNext_emits (groups : PaginatedList (option Group)) (i : nat) (b : bool)
    (st : Rx.CombineLatest GroupDtoModel) (value : PaginatedList (option GroupDtoModel)) :
  (composeNext groups i b st).2 = Some value →
  pageInfo value = pageInfo groups
  ∧ page value = Rx.values (composeNext groups i b st).1
  ∧ Rx.toRespond (composeNext groups i b st).1 = 0.
Proof.
  unfold composeNext. destruct (page groups !! i) as [g|]; [|done].
  unfold Rx.notifyNext. cbn [fst snd Rx.values Rx.toRespond].
  match goal with |- context [Nat.eqb ?t 0] => destruct (Nat.eqb_spec t 0) as [Hz|] end;
    [|done].
  intros [= <-]. done.
Qed.

Lemma composeNext_silent (groups : PaginatedList (option Group)) (i : nat) (b : bool)
    (st : Rx.CombineLatest GroupDtoModel) :
  (composeNext groups i b st).2 = None → Rx.toRespond st ≠ 0 →
  Rx.toRespond (composeNext groups i b st).1 ≠ 0.
Proof.
  unfold composeNext. destruct (page groups !! i) as [g|]; [|done].
  unfold Rx.notifyNext. cbn [fst snd Rx.values Rx.toRespond].
  match goal with |- context [Nat.eqb ?t 0] => destruct (Nat.eqb_spec t 0) as [Hz|] end;
    done.
Qed.

Lemma composing_wraps (groups : PaginatedList (option Group)) (seen : list (nat * bool))
    (st : Rx.CombineLatest GroupDtoModel) (value : PaginatedList (option GroupDtoModel)) :
  composing groups seen st → Rx.toRespond st = 0 →
  pageInfo value = pageInfo groups → page value = Rx.values st →
  wraps groups seen value.
Proof.
  intros (Hlen & Hcount & Hfull & _) Hz Hinfo Hpage.
  split; [done|]. split; [by rewrite Hpage|].
  intros i g Hg. rewrite Hz in Hcount. symmetry in Hcount.
  destruct (proj1 (pending_zero _) Hcount i) as [d Hd].
  { rewrite Hlen. by eapply lookup_lt_Some. }
  destruct (Hfull i d Hd) as (b & g' & Hin & Hg' & ->).
  exists b. split; [done|]. rewrite Hpage, Hd. congruence.
Qed.

Lemma compose_wraps (groups : PaginatedList (option Group)) (answers seen : list (nat * bool))
    (st : Rx.CombineLatest GroupDtoModel) (value : PaginatedList (option GroupDtoModel)) :
  composing groups seen st → value ∈ compose groups st answers →
  wraps groups (seen ++ answers) value.
Proof.
  revert seen st. induction answers as [|[i b] answers IH]; intros seen st Hst Hin;
    simpl in Hin; [by apply elem_of_nil in Hin|].
  pose proof (composing_step groups seen st i b Hst) as Hstep.
  assert (value ∈ compose groups (composeNext groups i b st).1 answers →
          wraps groups (seen ++ (i, b) :: answers) value) as Hrest.
  { intros Hv. rewrite cons_middle, (assoc_L (++)). by eapply IH. }
  destruct (composeNext groups i b st).2 as [v|] eqn:Hout; [|by apply Hrest].
  apply elem_of_cons in Hin as [->|Hin]; [|by apply Hrest].
  destruct (composeNext_emits _ _ _ _ _ Hout) as (Hinfo & Hpage & Hz).
  destruct (composing_wraps _ _ _ _ Hstep Hz Hinfo Hpage) as (? & ? & Hw).
  split; [done|]. split; [done|]. intros j g Hg.
  destruct (Hw j g Hg) as (b' & Hb' & ?). exists b'. split; [|done].
  rewrite cons_middle, (assoc_L (++)). apply elem_of_app. by left.
Qed.

Lemma composing_composed (groups : PaginatedList (option Group)) (answers seen : list (nat * bool))
    (st : Rx.CombineLatest GroupDtoModel) :
  composing groups seen st →
  composing groups (seen ++ answers) (composed groups st answers).
Proof.
  revert seen st. induction answers as [|[i b] answers IH]; intros seen st Hst; simpl.
  - by rewrite app_nil_r.
  - rewrite cons_middle, (assoc_L (++)). apply IH. by apply composing_step.
Qed.

Lemma compose_emits (groups : PaginatedList (option Group)) (answers : list (nat * bool))
    (st : Rx.CombineLatest GroupDtoModel) :
  Rx.toRespond st ≠ 0 → Rx.toRespond (composed groups st answers) = 0 →
  compose groups st answers ≠ [].
Proof.
  revert st. induction answers as [|[i b] answers IH]; intros st Hnz Hz; simpl in *;
    [done|].
  destruct (composeNext groups i b st).2 as [v|] eqn:Hout; [done|].
  apply IH; [|done]. by apply composeNext_silent.
Qed.

Lemma latest_snoc (seen : list (nat * bool)) (j i : nat) (b : bool) :
  latest (seen ++ [(j, b)]) i = if Nat.eqb j i then Some b else latest seen i.
Proof.
  induction seen as [|[k c] seen IH]; simpl; [done|]. rewrite IH.
  destruct (Nat.eqb j i); [done|]. done.
Qed.

Lemma up_to_date_subscribed (groups : PaginatedList (option Group)) :
  up_to_date groups [] (Rx.subscribed (length (page groups))).
Proof.
  split; [apply length_replicate|]. intros i g Hg. cbn.
  apply lookup_replicate_2. by eapply lookup_lt_Some.
Qed.

Lemma up_to_date_step (groups : PaginatedList (option Group)) (seen : list (nat * bool))
    (st : Rx.CombineLatest GroupDtoModel) (j : nat) (b : bool) :
  up_to_date groups seen st →
  up_to_date groups (seen ++ [(j, b)]) (composeNext groups j b st).1.
Proof.
  intros [Hlen Hslots]. unfold composeNext.
  destruct (page groups !! j) as [gj|] eqn:Hj; unfold Rx.notifyNext;
    cbv zeta; cbn [fst Rx.values].
  - split; cbn [Rx.values]; [by rewrite length_insert|]. intros i g Hg.
    rewrite latest_snoc.
    destruct (Nat.eqb_spec j i) as [->|Hne].
    + rewrite list_lookup_insert_eq by (rewrite Hlen; by eapply lookup_lt_Some).
      cbn. congruence.
    + rewrite list_lookup_insert_ne by done. by apply Hslots.
  - split; [done|]. intros i g Hg. rewrite latest_snoc.
    destruct (Nat.eqb_spec j i) as [->|Hne]; [congruence|by apply Hslots].
Qed.

Lemma up_to_date_composed (groups : PaginatedList (option Group))
    (answers seen : list (nat * bool)) (st : Rx.CombineLatest GroupDtoModel) :
  up_to_date groups seen st →
  up_to_date groups (seen ++ answers) (composed groups st answers).
Proof.
  revert seen st. induction answers as [|[i b] answers IH]; intros seen st Hst; simpl.
  - by rewrite app_nil_r.
  - rewrite cons_middle, (assoc_L (++)). apply IH. by apply up_to_date_step.
Qed.

Lemma compose_app (groups : PaginatedList (option Group))
    (st : Rx.CombineLatest GroupDtoModel) (before after : list (nat * bool)) :
  compose groups st (before ++ after)
  = compose groups st before ++ compose groups (composed groups st before) after.
Proof.
  revert st. induction before as [|[i b] before IH]; intros st; simpl; [done|].
  rewrite IH. by destruct (composeNext groups i b st).2.
Qed.

Lemma composeNext_streams (groups : PaginatedList (option Group)) (i : nat) (b : bool)
    (st : Rx.CombineLatest GroupDtoModel) :
  Rx.toRespond st = 0 →
  Rx.toRespond (composeNext groups i b st).1 = 0
  ∧ if Nat.ltb i (length (page groups))
    then (composeNext groups i b st).2
         = Some {| pageInfo := pageInfo groups;
                   page := Rx.values (composeNext groups i b st).1 |}
    else (composeNext groups i b st).2 = None ∧ (composeNext groups i b st).1 = st.
Proof.
  intros Hz. unfold composeNext.
  destruct (page groups !! i) as [g|] eqn:Hg.
  - apply lookup_lt_Some in Hg as Hi. apply Nat.ltb_lt in Hi as ->.
    unfold Rx.notifyNext. cbn [fst snd Rx.values Rx.toRespond]. by rewrite Hz.
  - apply lookup_ge_None in Hg. apply Nat.ltb_ge in Hg as ->. done.
Qed.

Lemma compose_streams (groups : PaginatedList (option Group))
    (after : list (nat * bool)) (st : Rx.CombineLatest GroupDtoModel) :
  Rx.toRespond st = 0 →
  length (compose groups st after)
  = length (of_a_query (length (page groups)) after).
Proof.
  revert st. induction after as [|[i b] after IH]; intros st Hz; [done|].
  destruct (composeNext_streams groups i b st Hz) as [Hz' Hout].
  cbn [compose of_a_query List.filter fst snd].
  destruct (Nat.ltb i (length (page groups))).
  - rewrite Hout. cbn [length]. f_equal. by apply IH.
  - destruct Hout as [-> ->]. by apply IH.
Qed.

Lemma compose_quiet (groups : PaginatedList (option Group))
    (rest : list (nat * bool)) (st : Rx.CombineLatest GroupDtoModel) :
  Rx.toRespond st = 0 → compose groups st rest = [] → composed groups st rest = st.
Proof.
  revert st. induction rest as [|[i b] rest IH]; intros st Hz Hnone; [done|].
  destruct (composeNext_streams groups i b st Hz) as [Hz' Hout].
  cbn [compose composed] in *.
  destruct (Nat.ltb i (length (page groups))).
  - by rewrite Hout in Hnone.
  - destruct Hout as [Hout Hst]. rewrite Hout in Hnone. rewrite Hst in *. by apply IH.
Qed.

Lemma compose_last (groups : PaginatedList (option Group))
    (answers : list (nat * bool)) (st : Rx.CombineLatest GroupDtoModel)
    (value : PaginatedList (option GroupDtoModel)) :
  last (compose groups st answers) = Some value →
  page value = Rx.values (composed groups st answers).
Proof.
  revert st. induction answers as [|[i b] answers IH]; intros st Hlast; [done|].
  cbn [compose composed] in *.
  destruct (composeNext groups i b st).2 as [v|] eqn:Hout; [|by apply IH].
  destruct (compose groups (composeNext groups i b st).1 answers) as [|v' vs] eqn:Hrest.
  - injection Hlast as <-.
    destruct (composeNext_emits _ _ _ _ _ Hout) as (_ & Hpage & Hz).
    by rewrite (compose_quiet _ _ _ Hz Hrest).
  - apply IH. rewrite Hrest. by rewrite last_cons_cons in Hlast.
Qed.

(** C1, as the code has it: whatever the order in which the authorization
    queries of a fetched list answer, and however often each answers, every
    composed list that is emitted carries the list's page information, has
    as many entries as the list and wraps the i-th group in its i-th entry;
    none is emitted before every query has answered once; for a list that is
    not empty the first one is emitted when the last query has answered, and
    from then on one more follows every further answer of a query; the last
    one emitted shows for each group the latest answer of its query. *)
Theorem compose_streams_in_order (groups : PaginatedList (option Group))
    (answers : list (nat * bool)) :
  let n := length (page groups) in
  let emitted := compose groups (Rx.subscribed n) answers in
  (∀ value, value ∈ emitted →
     pageInfo value = pageInfo groups
     ∧ length (page value) = n
     ∧ ∀ i g, page groups !! i = Some g →
         ∃ b, (i, b) ∈ answers
              ∧ page value !! i = Some (Some {| ableToDelete := b; group := g |}))
  ∧ (emitted ≠ [] → ∀ i, i < n → ∃ b, (i, b) ∈ answers)
  ∧ (n ≠ 0 → (∀ i, i < n → ∃ b, (i, b) ∈ answers) → emitted ≠ [])
  ∧ (∀ before after,
       answers = before ++ after →
       (∀ i, i < n → ∃ b, (i, b) ∈ before) →
       length emitted
       = length (compose groups (Rx.subscribed n) before)
         + length (of_a_query n after))
  ∧ (∀ value, last emitted = Some value →
       ∀ i g, page groups !! i = Some g →
         ∃ b, latest answers i = Some b
              ∧ page value !! i = Some (Some {| ableToDelete := b; group := g |})).
Proof.
  intros n emitted.
  assert (∀ value, value ∈ emitted → wraps groups answers value) as Hwraps.
  { intros value Hin.
    apply (compose_wraps groups answers [] (Rx.subscribed n) value); [|done].
    apply composing_subscribed. }
  assert (∀ seen, (∀ i, i < n → ∃ b, (i, b) ∈ seen) →
                  Rx.toRespond (composed groups (Rx.subscribed n) seen) = 0) as Hfull.
  { intros seen Hall.
    destruct (composing_composed groups seen [] (Rx.subscribed n)
                (composing_subscribed groups)) as (Hlen & Hcount & _ & Hseen).
    rewrite Hcount. apply pending_zero. intros i Hi. rewrite Hlen in Hi.
    destruct (Hall i Hi) as [b Hb]. by eapply Hseen. }
  split; [exact Hwraps|]. split; [|split; [|split]].
  - intros Hne i Hi. subst emitted.
    destruct (compose groups (Rx.subscribed n) answers) as [|value rest] eqn:Hc; [done|].
    destruct (Hwraps value) as (_ & _ & Hw); [apply list_elem_of_here|].
    destruct (lookup_lt_is_Some_2 (page groups) i Hi) as [g Hg].
    destruct (Hw i g Hg) as (b & Hb & _). by exists b.
  - intros Hn Hall. apply compose_emits; [done|]. by apply Hfull.
  - intros before after -> Hall. subst emitted. rewrite compose_app, length_app.
    f_equal. apply compose_streams. by apply Hfull.
  - intros value Hlast i g Hg.
    assert (value ∈ emitted) as Hin.
    { apply last_Some in Hlast as [l ->]. apply elem_of_app. right.
      apply list_elem_of_here. }
    destruct (Hwraps value Hin) as (_ & _ & Hw).
    destruct (Hw i g Hg) as (b & _ & Hslot).
    destruct (up_to_date_composed groups answers [] (Rx.subscribed n)
                (up_to_date_subscribed groups)) as [_ Hslots].
    pose proof Hslot as Hpage.
    rewrite (compose_last _ _ _ _ Hlast), (Hslots i g Hg) in Hslot.
    injection Hslot as Hslot. cbn [app] in Hslot.
    destruct (latest answers i) as [b'|]; simpl in Hslot; [|done].
    injection Hslot as ->. by exists b.
Qed.

Lemma compose_streams_in_order_witness :
  let g1 := Some {| id := Js.Str "1"; name := Js.Str "Administrator"; self := Js.Str "/groups/1" |} in
  let g2 := Some {| id := Js.Str "2"; name := Js.Str "Anonymous"; self := Js.Str "/groups/2" |} in
  let groups :=
    {| pageInfo := {| pi_currentPage := 1; pi_pageSize := 5; pi_totalElements := 2 |};
       page := [g1; g2] |} in
  length (compose groups (Rx.subscribed 2) [(1, true); (0, true); (0, false)])
  = length (compose groups (Rx.subscribed 2) [(1, true); (0, true)]) + 1.
Proof.
  intros g1 g2 groups.
  destruct (compose_streams_in_order groups [(1, true); (0, true); (0, false)])
    as (_ & _ & _ & Hstreams & _).
  apply (Hstreams [(1, true); (0, true)] [(0, false)]); [reflexivity|].
  intros [|[|i]] Hi.
  - exists true. apply list_elem_of_further, list_elem_of_here.
  - exists true. apply list_elem_of_here.
  - simpl in Hi. lia.
Defined.

(** C1 as it is stated fails, twice: for a fetched list with an empty page
    no composed list is emitted at all, and for a list of two groups whose
    queries answer a second time three composed lists are emitted, the first
    of them before the queries have given their last answer. *)
Lemma compose_is_not_a_join :
  let g1 := Some {| id := Js.Str "1"; name := Js.Str "Administrator"; self := Js.Str "/groups/1" |} in
  let g2 := Some {| id := Js.Str "2"; name := Js.Str "Anonymous"; self := Js.Str "/groups/2" |} in
  let info := {| pi_currentPage := 1; pi_pageSize := 5; pi_totalElements := 2 |} in
  ¬ joined {| pageInfo := info; page := [] |} []
  ∧ ¬ joined {| pageInfo := info; page := [g1; g2] |}
        [(1, true); (0, true); (0, false); (1, false)].
Proof.
  intros g1 g2 info. split.
  - intros Hjoin. destruct Hjoin as (value & Hone & _); [simpl; lia|]. discriminate Hone.
  - intros Hjoin. destruct Hjoin as (value & Hone & _).
    + intros [|[|i]] Hi.
      * exists true. apply list_elem_of_further, list_elem_of_here.
      * exists true. apply list_elem_of_here.
      * simpl in Hi. lia.
    + apply (f_equal length) in Hone. vm_compute in Hone. discriminate Hone.
Qed.

(** ** search *)

Lemma isAuthorized_calls_authorization (inner : nat) (groups : list (option Group)) :
  Forall (λ c, is_authorization c = true) (isAuthorized_calls inner groups).
Proof.
  apply Forall_lookup. intros i c Hc. unfold isAuthorized_calls in Hc.
  rewrite list_lookup_imap in Hc. destruct (groups !! i); [|done].
  by injection Hc as <-.
Qed.

Lemma search_effects (query : Js.value) (w : World) :
  let changed :=
    Js.not_nullish query && Js.strict_ne (currentSearchQuery (comp w)) query in
  let q := if changed then Js.to_string query else currentSearchQuery (comp w) in
  let p := if changed then 1 else currentPage (config (comp w)) in
  let s := pageSize (config (comp w)) in
  currentSearchQuery (comp (search query w)) = q
  ∧ config (comp (search query w))
    = {| pagination_id := pagination_id (config (comp w)); pageSize := s;
         currentPage := p |}
  ∧ groups_s (comp (search query w)) = groups_s (comp w)
  ∧ groupsDto_s (comp (search query w)) = groupsDto_s (comp w)
  ∧ pageInfoState_s (comp (search query w)) = pageInfoState_s (comp w)
  ∧ ∃ rest,
      calls (search query w)
      = calls w ++ (if changed then [NavigateToGroupRegistry] else [])
          ++ [SearchGroups (Js.trim q) p s (nextId w)]
          ++ (if bool_decide ((Js.trim q, p, s) ∈ cached w) then []
              else [BackendSearch (Js.trim q) p s])
          ++ rest
      ∧ Forall (λ c, is_authorization c = true) rest.
Proof.
  intros changed q p s. subst q p s. unfold search. fold changed.
  destruct changed; cbn -[Js.trim]; unfold searchGroups; cbn -[Js.trim];
    case_bool_decide; cbn -[Js.trim]; unfold deriveNext;
    destruct (hasSucceeded (groups_s (comp w)));
    destruct (payload (groups_s (comp w))); cbn -[Js.trim];
    repeat split; try (by destruct (config (comp w)));
    try (eexists; split; [rewrite <- ?(assoc_L (++)); try reflexivity; by rewrite app_nil_r|];
         first [apply isAuthorized_calls_authorization | by constructor]).
Qed.

(** C2: a call of [search] whose query is there and is not the stored one
    sets the current page to 1 and stores the query, and the fetch it then
    issues, the only one of the call, asks for page 1 of the new query. *)
Theorem search_new_query_resets_page (query : Js.value) (w : World) :
  Js.not_nullish query = true →
  Js.strict_ne (currentSearchQuery (comp w)) query = true →
  currentPage (config (comp (search query w))) = 1
  ∧ currentSearchQuery (comp (search query w)) = Js.to_string query
  ∧ ∃ rest,
      calls (search query w)
      = calls w
        ++ [NavigateToGroupRegistry;
            SearchGroups (Js.trim (Js.to_string query)) 1
              (pageSize (config (comp w))) (nextId w)]
        ++ rest
      ∧ Forall (λ c, ∀ q p s sub, c ≠ SearchGroups q p s sub) rest.
Proof.
  intros Hthere Hnew.
  destruct (search_effects query w) as (Hq & Hp & _ & _ & _ & rest & Hcalls & Hrest).
  rewrite Hthere, Hnew in Hq, Hp, Hcalls. cbn [andb] in Hq, Hp, Hcalls.
  split; [by rewrite Hp|]. split; [done|].
  eexists. split; [exact Hcalls|].
  apply Forall_app. split.
  - case_bool_decide; repeat constructor; done.
  - eapply Forall_impl; [exact Hrest|]. intros c Hc q p s sub ->. done.
Qed.

Lemma search_new_query_resets_page_witness :
  let w := onPageChange 3 (ngOnInit constructed) in
  currentPage (config (comp w)) = 3
  ∧ currentPage (config (comp (search (Js.Str "staff") w))) = 1.
Proof.
  intros w. split; [reflexivity|].
  by destruct (search_new_query_resets_page (Js.Str "staff") w eq_refl eq_refl).
Defined.

(** ** forceUpdateGroup *)

Lemma forceUpdateGroup_effects (w : World) :
  let q := Js.trim (currentSearchQuery (comp w)) in
  let p := currentPage (config (comp w)) in
  let s := pageSize (config (comp w)) in
  currentSearchQuery (comp (forceUpdateGroup w)) = currentSearchQuery (comp w)
  ∧ config (comp (forceUpdateGroup w)) = config (comp w)
  ∧ ∃ rest,
      calls (forceUpdateGroup w)
      = calls w
        ++ [ClearGroupsRequests; SearchGroups q p s (nextId w); BackendSearch q p s]
        ++ rest
      ∧ Forall (λ c, is_authorization c = true) rest.
Proof.
  intros q p s. subst q p s. unfold forceUpdateGroup.
  set (w1 := clearGroupsRequests w).
  assert (comp w1 = comp w) as Hcomp by reflexivity.
  assert (calls w1 = calls w ++ [ClearGroupsRequests]) as Hcleared by reflexivity.
  assert (cached w1 = ∅) as Hheld by reflexivity.
  assert (nextId w1 = nextId w) as Hid by reflexivity.
  destruct (search_effects (Js.Str (currentSearchQuery (comp w1))) w1)
    as (Hq & Hp & _ & _ & _ & rest & Hcalls & Hrest).
  cbn [Js.not_nullish Js.strict_ne andb Js.to_string] in Hq, Hp, Hcalls.
  rewrite String.eqb_refl in Hq, Hp, Hcalls. cbn [negb] in Hq, Hp, Hcalls.
  rewrite Hheld, Hcleared, Hid in Hcalls. rewrite Hcomp in Hq, Hp, Hcalls |- *.
  split; [done|]. split.
  - rewrite Hp. by destruct (config (comp w)).
  - exists rest. split; [|done]. rewrite Hcalls.
    rewrite bool_decide_eq_false_2 by apply not_elem_of_empty.
    by rewrite <- !(assoc_L (++)).
Qed.

(** C7: [forceUpdateGroup] first clears the cached group requests and then
    searches with the stored query and page as they are; whatever the
    service held before, this fetch goes to the backend. *)
Theorem forceUpdateGroup_clears_then_fetches (w : World) :
  let q := Js.trim (currentSearchQuery (comp w)) in
  let p := currentPage (config (comp w)) in
  let s := pageSize (config (comp w)) in
  currentSearchQuery (comp (forceUpdateGroup w)) = currentSearchQuery (comp w)
  ∧ config (comp (forceUpdateGroup w)) = config (comp w)
  ∧ ∃ rest,
      calls (forceUpdateGroup w)
      = calls w
        ++ [ClearGroupsRequests; SearchGroups q p s (nextId w); BackendSearch q p s]
        ++ rest
      ∧ Forall (λ c, is_authorization c = true) rest.
Proof. apply forceUpdateGroup_effects. Qed.

(** Without the invalidation the same search is answered from what the
    service holds. *)
Lemma search_again_served_from_cache (w : World) :
  let q := Js.trim (currentSearchQuery (comp w)) in
  let p := currentPage (config (comp w)) in
  let s := pageSize (config (comp w)) in
  (q, p, s) ∈ cached w →
  ∃ rest,
    calls (search (Js.Str (currentSearchQuery (comp w))) w)
    = calls w ++ [SearchGroups q p s (nextId w)] ++ rest
    ∧ Forall (λ c, is_authorization c = true) rest.
Proof.
  intros q p s Hheld. subst q p s.
  destruct (search_effects (Js.Str (currentSearchQuery (comp w))) w)
    as (_ & _ & _ & _ & _ & rest & Hcalls & Hrest).
  cbn [Js.not_nullish Js.strict_ne andb Js.to_string] in Hcalls.
  rewrite String.eqb_refl in Hcalls. cbn [negb] in Hcalls.
  rewrite bool_decide_eq_true_2 in Hcalls by done.
  by exists rest.
Qed.

(** ** deleteGroup *)


Lemma lookup_sub_unsubscribe (sub sub' : nat) (w : World) :
  lookup_sub sub (subscriptions (unsubscribe sub' w))
  = if Nat.eqb sub' sub then None else lookup_sub sub (subscriptions w).
Proof.
  unfold unsubscribe, with_subscriptions. cbn [subscriptions].
  induction (subscriptions w) as [|[k s] l IH]; simpl; [by destruct (Nat.eqb sub' sub)|].
  destruct (Nat.eqb_spec k sub') as [->|Hne]; simpl.
  - rewrite IH. by destruct (Nat.eqb_spec sub' sub).
  - rewrite IH. destruct (Nat.eqb_spec k sub) as [->|]; [|done].
    by destruct (Nat.eqb_spec sub' sub).
Qed.

Lemma lookup_sub_cleanup (sub : nat) (l : list nat) (w : World) :
  sub ∈ l ∨ lookup_sub sub (subscriptions w) = None →
  lookup_sub sub (subscriptions (foldl (λ w sub, unsubscribe sub w) w l)) = None.
Proof.
  revert w. induction l as [|k l IH]; intros w Hsub; simpl.
  - destruct Hsub as [Hsub|]; [by apply elem_of_nil in Hsub|done].
  - apply IH. rewrite lookup_sub_unsubscribe.
    destruct (Nat.eqb_spec k sub) as [->|Hne]; [by right|].
    destruct Hsub as [Hsub|]; [|by right].
    apply elem_of_cons in Hsub as [->|]; [done|by left].
Qed.

Lemma comp_cleanup (l : list nat) (w : World) :
  comp (foldl (λ w sub, unsubscribe sub w) w l) = comp w.
Proof. revert w. induction l as [|k l IH]; intros w; simpl; [done|]. by rewrite IH. Qed.

(** What the teardown does release: nothing that arrives afterwards for a
    subscription kept in [subs] reaches the component. *)
Lemma destroy_silences_tracked (sub inner index : nat) (authorized : bool)
    (groupsRD : RemoteData (PaginatedList (option Group))) (w : World) :
  sub ∈ subs (comp w) →
  deliver (GroupsArrive sub groupsRD) (ngOnDestroy w) = ngOnDestroy w
  ∧ deliver (Authorized sub inner index authorized) (ngOnDestroy w) = ngOnDestroy w.
Proof.
  intros Hsub. unfold ngOnDestroy, cleanupSubscribes, deliver, onAuthorized.
  rewrite lookup_sub_cleanup; [done|by left].
Qed.



(** C10: for a group whose id has no value [deleteGroup] does nothing: no
    request, no notification, no subscription, the component as it was. *)
Theorem deleteGroup_without_id (g : Group) (w : World) :
  hasValue (id g) = false → deleteGroup g w = w.
Proof. intros Hid. unfold deleteGroup. by rewrite Hid. Qed.

Lemma deleteGroup_without_id_witness :
  deleteGroup {| id := Js.Undefined; name := Js.Str "Editors"; self := Js.Str "/groups/7" |}
    (ngOnInit constructed)
  = ngOnInit constructed.
Proof. apply deleteGroup_without_id. reflexivity. Defined.

(** ** Teardown *)

(** C8 does not hold of the code: the subscription of [deleteGroup] is not
    kept in [subs], so the teardown leaves it open.  Here a group is deleted,
    the component is destroyed, and then the backend confirms the deletion:
    the component searches again, and the fetch and the derivation this
    starts after the teardown write to groups$, pageInfoState$ and
    groupsDto$. *)
Theorem delete_answer_after_destroy_mutates_lists :
  let g := {| id := Js.Str "7"; name := Js.Str "Editors"; self := Js.Str "/groups/7" |} in
  let left := Some {| id := Js.Str "1"; name := Js.Str "Administrator";
                       self := Js.Str "/groups/1" |} in
  let info := {| pi_currentPage := 1; pi_pageSize := 5; pi_totalElements := 1 |} in
  let groupsRD :=
    {| hasSucceeded := true; payload := Some {| pageInfo := info; page := [left] |} |} in
  let destroyed := run [NgOnInit; DeleteGroupOf g; NgOnDestroy] constructed in
  let later :=
    run [Deliver (Deleted 2 true Js.Undefined);
         Deliver (GroupsArrive 3 groupsRD);
         Deliver (Authorized 4 5 0 true)] destroyed in
  subs (comp destroyed) = [0; 1]
  ∧ subscriptions destroyed = [(2, DeleteSub g)]
  ∧ groups_s (comp destroyed) = {| hasSucceeded := false; payload := None |}
  ∧ groupsDto_s (comp destroyed) = None
  ∧ pageInfoState_s (comp destroyed) = None
  ∧ groups_s (comp later) = groupsRD
  ∧ groupsDto_s (comp later)
    = Some {| pageInfo := info;
              page := [Some {| ableToDelete := true; group := left |}] |}
  ∧ pageInfoState_s (comp later) = Some info.
Proof. vm_compute. repeat split. Qed.

Lemma compose_empty_page (groups : PaginatedList (option Group))
    (st : Rx.CombineLatest GroupDtoModel) (answers : list (nat * bool)) :
  page groups = [] → compose groups st answers = [].
Proof.
  intros Hpage. revert st. induction answers as [|[i b] answers IH]; intros st;
    simpl; [done|].
  unfold composeNext. rewrite Hpage. cbn. apply IH.
Qed.

Lemma lookup_sub_set_subscriber (sub : nat) (s s0 : Subscriber) (w : World) :
  lookup_sub sub (subscriptions w) = Some s0 →
  lookup_sub sub (subscriptions (set_subscriber sub s w)) = Some s.
Proof.
  unfold set_subscriber, with_subscriptions. cbn [subscriptions].
  induction (subscriptions w) as [|[k x] l IH]; simpl; [done|].
  destruct (Nat.eqb_spec k sub) as [->|Hne]; simpl.
  - by rewrite Nat.eqb_refl.
  - destruct (Nat.eqb_spec k sub); [done|]. apply IH.
Qed.

(** X14: the pipeline's subscriber runs [compose]: after the answers to the
    running inner observable of [sub], groupsDto$ holds the last list
    [compose] emits (and what it held before when there is none). *)
Lemma onAuthorized_compose (sub : nat) (running : Inner) (answers : list (nat * bool))
    (w : World) :
  lookup_sub sub (subscriptions w) = Some (DeriveSub (Some running)) →
  let w' :=
    foldl (λ w a, deliver (Authorized sub (inner_id running) a.1 a.2) w) w answers in
  groupsDto_s (comp w')
  = match last (compose (inner_groups running) (inner_state running) answers) with
    | Some value => Some value
    | None => groupsDto_s (comp w)
    end.
Proof.
  revert running w. induction answers as [|[i b] answers IH]; intros running w Hsub;
    [done|].
  cbn [foldl fst snd compose]. cbv zeta in IH.
  set (r := composeNext (inner_groups running) i b (inner_state running)).
  set (running' := {| inner_id := inner_id running; inner_groups := inner_groups running;
                      inner_state := r.1 |}).
  assert (lookup_sub sub
            (subscriptions (deliver (Authorized sub (inner_id running) i b) w))
          = Some (DeriveSub (Some running'))) as Hsub'.
  { unfold deliver, onAuthorized. rewrite Hsub, Nat.eqb_refl. fold r. fold running'.
    destruct r.2; cbn [set_pageInfoState set_groupsDto with_comp subscriptions];
      by eapply lookup_sub_set_subscriber. }
  specialize (IH running' _ Hsub'). subst running'.
  cbn [inner_id inner_groups inner_state] in IH. rewrite IH.
  assert (groupsDto_s (comp (deliver (Authorized sub (inner_id running) i b) w))
          = match r.2 with Some value => Some value | None => groupsDto_s (comp w) end)
    as ->.
  { unfold deliver, onAuthorized. rewrite Hsub, Nat.eqb_refl. fold r. by destruct r.2. }
  destruct r.2 as [value|]; [|done].
  rewrite last_cons. by destruct (last _).
Qed.

Lemma delete_answer_once (g : Group) (sub : nat) (success : bool) (msg : Js.value)
    (w : World) :
  lookup_sub sub (subscriptions w) = Some (DeleteSub g) →
  lookup_sub sub (subscriptions (deliver (Deleted sub success msg) w)) = None.
Proof.
  intros Hopen. unfold deliver. rewrite Hopen, lookup_sub_unsubscribe.
  by rewrite Nat.eqb_refl.
Qed.

(** * Further properties *)

(** ** Paging, repeating and clearing a search *)

Lemma search_unchanged_effects (query : Js.value) (w : World) :
  Js.not_nullish query && Js.strict_ne (currentSearchQuery (comp w)) query = false →
  let q := Js.trim (currentSearchQuery (comp w)) in
  let p := currentPage (config (comp w)) in
  let s := pageSize (config (comp w)) in
  currentSearchQuery (comp (search query w)) = currentSearchQuery (comp w)
  ∧ config (comp (search query w)) = config (comp w)
  ∧ ∃ rest,
      calls (search query w)
      = calls w ++ [SearchGroups q p s (nextId w)]
          ++ (if bool_decide ((q, p, s) ∈ cached w) then [] else [BackendSearch q p s])
          ++ rest
      ∧ Forall (λ c, is_authorization c = true) rest.
Proof.
  intros Hsame q p s. subst q p s.
  destruct (search_effects query w) as (Hq & Hp & _ & _ & _ & rest & Hcalls & Hrest).
  rewrite Hsame in Hq, Hp, Hcalls.
  split; [done|]. split; [rewrite Hp; by destruct (config (comp w))|].
  by exists rest.
Qed.

(** X1: a [search] whose query is missing ([null], [undefined]) or is the
    stored one goes nowhere and keeps query and page: it fetches the stored
    query again, on the current page. *)
Theorem search_same_query_keeps_page (query : Js.value) (w : World) :
  Js.not_nullish query = false ∨ query = Js.Str (currentSearchQuery (comp w)) →
  let q := Js.trim (currentSearchQuery (comp w)) in
  let p := currentPage (config (comp w)) in
  let s := pageSize (config (comp w)) in
  currentSearchQuery (comp (search query w)) = currentSearchQuery (comp w)
  ∧ config (comp (search query w)) = config (comp w)
  ∧ ∃ rest,
      calls (search query w)
      = calls w ++ [SearchGroups q p s (nextId w)]
          ++ (if bool_decide ((q, p, s) ∈ cached w) then [] else [BackendSearch q p s])
          ++ rest
      ∧ Forall (λ c, is_authorization c = true) rest.
Proof.
  intros Hsame. apply search_unchanged_effects.
  destruct Hsame as [-> | ->]; [done|].
  cbn [Js.not_nullish Js.strict_ne andb]. by rewrite String.eqb_refl.
Qed.

Lemma search_same_query_keeps_page_witness :
  let w := onPageChange 4 (search (Js.Str "staff") constructed) in
  currentPage (config (comp (search Js.Null w))) = 4
  ∧ currentPage (config (comp (search (Js.Str "staff") w))) = 4.
Proof.
  intros w. split.
  - destruct (search_same_query_keeps_page Js.Null w) as (_ & Hc & _); [by left|].
    by rewrite Hc.
  - destruct (search_same_query_keeps_page (Js.Str "staff") w) as (_ & Hc & _);
      [by right|].
    by rewrite Hc.
Defined.

(** X2: a page change keeps the stored query and fetches the page asked
    for; that page is not set back to 1. *)
Theorem onPageChange_keeps_query (event : nat) (w : World) :
  let q := Js.trim (currentSearchQuery (comp w)) in
  let s := pageSize (config (comp w)) in
  currentPage (config (comp (onPageChange event w))) = event
  ∧ currentSearchQuery (comp (onPageChange event w)) = currentSearchQuery (comp w)
  ∧ ∃ rest,
      calls (onPageChange event w)
      = calls w ++ [SearchGroups q event s (nextId w)]
          ++ (if bool_decide ((q, event, s) ∈ cached w) then []
              else [BackendSearch q event s])
          ++ rest
      ∧ Forall (λ c, is_authorization c = true) rest.
Proof.
  intros q s. subst q s. unfold onPageChange.
  set (w1 := set_currentPage event w).
  destruct (search_unchanged_effects (Js.Str (currentSearchQuery (comp w1))) w1)
    as (Hq & Hc & rest & Hcalls & Hrest).
  { cbn [Js.not_nullish Js.strict_ne andb]. by rewrite String.eqb_refl. }
  split; [by rewrite Hc|]. split; [by rewrite Hq|].
  exists rest. split; [|done]. by rewrite Hcalls.
Qed.

(** X3: clearing the form empties the field and searches for the empty
    query; the page goes back to 1 only when the stored query was not empty
    already. *)
Theorem clearFormAndResetResult_effects (w : World) :
  let stored := currentSearchQuery (comp w) in
  let p := if String.eqb stored "" then currentPage (config (comp w)) else 1 in
  let s := pageSize (config (comp w)) in
  currentSearchQuery (comp (clearFormAndResetResult w)) = ""
  ∧ currentPage (config (comp (clearFormAndResetResult w))) = p
  ∧ ∃ rest,
      calls (clearFormAndResetResult w)
      = calls w ++ [PatchQuery ""]
          ++ (if String.eqb stored "" then [] else [NavigateToGroupRegistry])
          ++ [SearchGroups "" p s (nextId w)]
          ++ (if bool_decide (("", p, s) ∈ cached w) then [] else [BackendSearch "" p s])
          ++ rest
      ∧ Forall (λ c, is_authorization c = true) rest.
Proof.
  intros stored p s. subst stored p s. unfold clearFormAndResetResult.
  set (w1 := call (PatchQuery "") w).
  destruct (search_effects (Js.Str "") w1) as (Hq & Hp & _ & _ & _ & rest & Hcalls & Hrest).
  cbn [Js.not_nullish Js.strict_ne andb Js.to_string] in Hq, Hp, Hcalls.
  change (currentSearchQuery (comp w1)) with (currentSearchQuery (comp w)) in *.
  change (config (comp w1)) with (config (comp w)) in *.
  change (calls w1) with (calls w ++ [PatchQuery ""]) in *.
  change (cached w1) with (cached w) in *.
  change (nextId w1) with (nextId w) in *.
  change (Js.trim "") with "" in *.
  destruct (String.eqb_spec (currentSearchQuery (comp w)) "") as [Hempty|Hfull];
    cbn [negb] in Hq, Hp, Hcalls.
  - rewrite Hempty in Hcalls. change (Js.trim "") with "" in Hcalls.
    split; [by rewrite Hq|]. split; [by rewrite Hp|].
    exists rest. split; [|done]. rewrite Hcalls. by rewrite <- !(assoc_L (++)).
  - split; [done|]. split; [by rewrite Hp|].
    exists rest. split; [|done]. rewrite Hcalls. by rewrite <- !(assoc_L (++)).
Qed.

(** ** trim *)








(** ** Subscriptions *)

Lemma lookup_sub_elem (sub : nat) (s : Subscriber) (l : list (nat * Subscriber)) :
  lookup_sub sub l = Some s → (sub, s) ∈ l.
Proof.
  induction l as [|[k x] l IH]; simpl; [done|].
  destruct (Nat.eqb_spec k sub) as [->|Hne].
  - intros [= ->]. apply list_elem_of_here.
  - intros Hl. apply list_elem_of_further. by apply IH.
Qed.

Lemma lookup_sub_None (sub : nat) (l : list (nat * Subscriber)) :
  lookup_sub sub l = None ↔ sub ∉ l.*1.
Proof.
  induction l as [|[k x] l IH]; simpl.
  - split; [intros _ H; by apply elem_of_nil in H|done].
  - rewrite not_elem_of_cons. destruct (Nat.eqb_spec k sub) as [->|Hne]; simpl.
    + split; [done|]. by intros [? _].
    + rewrite IH. split; [by intros ?; split|by intros [_ ?]].
Qed.

Lemma lookup_sub_NoDup (sub : nat) (s : Subscriber) (l : list (nat * Subscriber)) :
  NoDup l.*1 → (sub, s) ∈ l → lookup_sub sub l = Some s.
Proof.
  induction l as [|[k x] l IH]; simpl; intros Hnd Hin; [by apply elem_of_nil in Hin|].
  apply NoDup_cons in Hnd as [Hk Hnd].
  apply elem_of_cons in Hin as [[= <- <-]|Hin]; [by rewrite Nat.eqb_refl|].
  destruct (Nat.eqb_spec k sub) as [->|Hne]; [|by apply IH].
  exfalso. apply Hk. apply (list_elem_of_fmap_2 fst) in Hin. done.
Qed.

Lemma lookup_sub_app (sub : nat) (l1 l2 : list (nat * Subscriber)) :
  lookup_sub sub (l1 ++ l2)
  = match lookup_sub sub l1 with
    | Some s => Some s
    | None => lookup_sub sub l2
    end.
Proof.
  induction l1 as [|[k x] l1 IH]; simpl; [done|]. by destruct (Nat.eqb k sub).
Qed.

Lemma lookup_sub_set (sub sub' : nat) (s : Subscriber) (w : World) :
  lookup_sub sub (subscriptions (set_subscriber sub' s w))
  = if Nat.eqb sub' sub then (λ _, s) <$> lookup_sub sub (subscriptions w)
    else lookup_sub sub (subscriptions w).
Proof.
  unfold set_subscriber, with_subscriptions. cbn [subscriptions].
  induction (subscriptions w) as [|[k x] l IH]; simpl; [by destruct (Nat.eqb sub' sub)|].
  destruct (Nat.eqb_spec k sub') as [->|Hne]; simpl.
  - destruct (Nat.eqb_spec sub' sub) as [->|]; [done|]. by rewrite IH.
  - destruct (Nat.eqb_spec k sub) as [->|].
    + by destruct (Nat.eqb_spec sub' sub) as [->|].
    + by rewrite IH.
Qed.

Lemma keys_set_subscriber (sub : nat) (s : Subscriber) (l : list (nat * Subscriber)) :
  (List.map (λ e, if Nat.eqb e.1 sub then (e.1, s) else e) l).*1 = l.*1.
Proof.
  induction l as [|[k x] l IH]; [done|]. cbn [List.map]. rewrite !fmap_cons, IH.
  f_equal. cbn [fst]. by destruct (Nat.eqb k sub).
Qed.

Lemma NoDup_keys_filter (f : nat * Subscriber → bool) (l : list (nat * Subscriber)) :
  NoDup l.*1 → NoDup (List.filter f l).*1.
Proof.
  induction l as [|e l IH]; simpl; [done|]. intros [Hk Hnd]%NoDup_cons.
  destruct (f e); [|by apply IH]. simpl. apply NoDup_cons. split; [|by apply IH].
  intros Hin. apply Hk. apply list_elem_of_fmap in Hin as (y & -> & Hy).
  apply list_elem_of_fmap. exists y. split; [done|].
  apply list_elem_of_In, filter_In in Hy as [Hy _]. by apply list_elem_of_In.
Qed.

Lemma Forall_filter_keep {A : Type} (P : A → Prop) (f : A → bool) (l : list A) :
  Forall P l → Forall P (List.filter f l).
Proof.
  induction 1 as [|x l Hx _ IH]; simpl; [done|]. destruct (f x); [by constructor|done].
Qed.

Lemma entry_ok_mono (n n' : nat) (kept kept' : list nat) (e : nat * Subscriber) :
  n ≤ n' → kept ⊆ kept' → entry_ok n kept e → entry_ok n' kept' e.
Proof.
  intros Hn Hkept (Hid & Hin & Hinner). split; [lia|]. split.
  - destruct e.2 as [|?|?]; [by apply Hkept|by apply Hkept|done].
  - destruct e.2 as [|[running|]|?]; [done|lia|done..].
Qed.

Lemma in_order_same (extra : list nat) (w w' : World) :
  subscriptions w' = subscriptions w → nextId w' = nextId w →
  subs (comp w') = subs (comp w) → in_order extra w → in_order extra w'.
Proof. unfold in_order. by intros -> -> ->. Qed.

Lemma in_order_push (k : nat) (extra : list nat) (w : World) :
  in_order (k :: extra) w → in_order extra (push_sub k w).
Proof.
  unfold in_order, push_sub, with_comp. cbn [subscriptions nextId comp subs].
  intros [Hnd Hall]. split; [done|]. by rewrite <- (assoc_L (++)).
Qed.

Lemma in_order_subscribe (s : Subscriber) (extra extra' : list nat) (w : World) :
  in_order extra w → extra ⊆ extra' →
  match s with
  | DeriveSub (Some _) => False
  | DeleteSub _ => True
  | _ => nextId w ∈ extra'
  end →
  in_order extra' (subscribe s w).
Proof.
  unfold in_order, subscribe. cbn [subscriptions nextId comp].
  intros [Hnd Hall] Hextra Hs. split.
  - rewrite fmap_app. apply NoDup_app. split; [done|]. split; [|apply NoDup_singleton].
    intros k Hk Hnew%list_elem_of_singleton.
    apply list_elem_of_fmap in Hk as (e & Hkey & He).
    rewrite Forall_forall in Hall. destruct (Hall e He) as [Hlt _].
    cbn [fst] in Hnew. lia.
  - apply Forall_app. split.
    + eapply Forall_impl; [exact Hall|]. intros e. apply entry_ok_mono; [lia|].
      intros k. rewrite !elem_of_app. intros [?|?]; [by left|right; by apply Hextra].
    + constructor; [|done]. split; [simpl; lia|]. cbn [fst snd].
      destruct s as [|[running|]|g]; try done;
        (split; [|done]); apply elem_of_app; by right.
Qed.

Lemma in_order_unsubscribe (sub : nat) (extra : list nat) (w : World) :
  in_order extra w → in_order extra (unsubscribe sub w).
Proof.
  unfold in_order, unsubscribe, with_subscriptions. cbn [subscriptions nextId comp].
  intros [Hnd Hall]. split; [by apply NoDup_keys_filter|by apply Forall_filter_keep].
Qed.

Lemma in_order_set (sub : nat) (x : option Inner) (extra : list nat) (w : World) :
  in_order extra w → derive_only w sub →
  match x with Some running => inner_id running < nextId w | None => True end →
  in_order extra (set_subscriber sub (DeriveSub x) w).
Proof.
  unfold in_order, set_subscriber, with_subscriptions. cbn [subscriptions nextId comp].
  intros [Hnd Hall] Honly Hx. split; [by rewrite keys_set_subscriber|].
  apply List.Forall_map. rewrite Forall_forall in Hall. apply Forall_forall.
  intros [k s] He. pose proof (Hall _ He) as (Hlt & Hkept & Hinner). cbn [fst snd] in *.
  destruct (Nat.eqb_spec k sub) as [->|Hne]; [|done].
  destruct (Honly s (lookup_sub_NoDup _ _ _ Hnd He)) as [y ->].
  split; [done|]. split; [done|]. by destruct x.
Qed.

Lemma in_order_bump (extra : list nat) (w : World) (cs : list Call) :
  in_order extra w →
  in_order extra
    {| comp := comp w; subscriptions := subscriptions w; nextId := S (nextId w);
       calls := cs; cached := cached w |}.
Proof.
  unfold in_order. cbn [subscriptions nextId comp]. intros [Hnd Hall]. split; [done|].
  eapply Forall_impl; [exact Hall|]. intros e. by apply entry_ok_mono; [lia|].
Qed.

Lemma derive_only_deriveNext (sub sub' : nat)
    (rd : RemoteData (PaginatedList (option Group))) (w : World) :
  derive_only w sub → derive_only (deriveNext sub' rd w) sub.
Proof.
  unfold derive_only, deriveNext. intros Honly s.
  destruct (hasSucceeded rd); [|by apply Honly].
  destruct (payload rd) as [groups|].
  - rewrite lookup_sub_set. cbn [call_all subscriptions].
    destruct (Nat.eqb sub' sub); [|by apply Honly].
    destruct (lookup_sub sub (subscriptions w)); [|done]. intros [= <-]. by eexists.
  - rewrite lookup_sub_unsubscribe. destruct (Nat.eqb sub' sub); [done|by apply Honly].
Qed.

Lemma in_order_deriveNext (sub : nat) (rd : RemoteData (PaginatedList (option Group)))
    (extra : list nat) (w : World) :
  in_order extra w → derive_only w sub → in_order extra (deriveNext sub rd w).
Proof.
  intros Hw Honly. unfold deriveNext. destruct (hasSucceeded rd); [|done].
  destruct (payload rd) as [groups|]; [|by apply in_order_unsubscribe].
  apply in_order_set; [|done|cbn; lia].
  unfold call_all. cbn [comp subscriptions nextId calls cached]. by apply in_order_bump.
Qed.

Lemma in_order_observers (rd : RemoteData (PaginatedList (option Group)))
    (extra : list nat) (observers : list nat) (w : World) :
  in_order extra w → Forall (derive_only w) observers →
  in_order extra (foldl (λ w sub, deriveNext sub rd w) w observers).
Proof.
  revert w. induction observers as [|sub observers IH]; intros w Hw Hall; [done|].
  apply Forall_cons in Hall as [Hsub Hall]. simpl. apply IH.
  - by apply in_order_deriveNext.
  - eapply Forall_impl; [exact Hall|]. intros k. apply derive_only_deriveNext.
Qed.

Lemma observers_derive_only (w : World) :
  NoDup (subscriptions w).*1 →
  Forall (derive_only w) (List.filter is_derive (subscriptions w)).*1.
Proof.
  intros Hnd. apply Forall_forall. intros sub Hsub s Hs.
  apply list_elem_of_fmap in Hsub as ([k x] & -> & Hin).
  apply list_elem_of_In, filter_In in Hin as [Hin Hd]. apply list_elem_of_In in Hin.
  cbn [fst] in Hs. rewrite (lookup_sub_NoDup _ _ _ Hnd Hin) in Hs. injection Hs as <-.
  unfold is_derive in Hd. cbn [snd] in Hd. destruct x; try done. by eexists.
Qed.

Lemma in_order_groups_next (rd : RemoteData (PaginatedList (option Group)))
    (extra : list nat) (w : World) :
  in_order extra w → in_order extra (groups_next rd w).
Proof.
  intros Hw. unfold groups_next. apply in_order_observers.
  - by apply (in_order_same extra w).
  - apply (observers_derive_only w), Hw.
Qed.

Lemma lookup_sub_fresh (extra : list nat) (w : World) (k : nat) :
  in_order extra w → nextId w ≤ k → lookup_sub k (subscriptions w) = None.
Proof.
  intros [_ Hall] Hk. apply lookup_sub_None. intros Hin.
  apply list_elem_of_fmap in Hin as (e & Hkey & He).
  rewrite Forall_forall in Hall. destruct (Hall e He) as [Hlt _]. lia.
Qed.

(** The world differs from [w] in fields the order does not read. *)
Ltac unread w := apply (in_order_same [] w); [reflexivity..|assumption].

Lemma in_order_search (query : Js.value) (w : World) :
  in_order [] w → in_order [] (search query w).
Proof.
  intros Hw. unfold search.
  set (w1 := if Js.not_nullish query && Js.strict_ne (currentSearchQuery (comp w)) query
             then _ else w).
  assert (in_order [] w1) as Hw1.
  { subst w1. destruct (_ && _); [|done]. unread w. }
  clearbody w1. clear Hw w. cbv zeta.
  set (w2 := searchGroups _ _ _ _ w1).
  assert (in_order [] w2 ∧ nextId w2 = nextId w1) as [Hw2 Hid].
  { subst w2. unfold searchGroups. cbv zeta.
    destruct (bool_decide _); (split; [unread w1|reflexivity]). }
  rewrite <- Hid. clearbody w2. clear Hw1 Hid w1.
  set (w4 := push_sub (nextId w2) (subscribe FetchSub w2)).
  assert (in_order [] w4) as Hw4.
  { apply in_order_push. apply (in_order_subscribe _ []); [done| |apply list_elem_of_here].
    intros k Hk. by apply elem_of_nil in Hk. }
  clearbody w4. clear Hw2 w2.
  set (w5 := subscribe (DeriveSub None) w4).
  assert (in_order [nextId w4] w5) as Hw5.
  { apply (in_order_subscribe _ []); [done| |apply list_elem_of_here].
    intros k Hk. by apply elem_of_nil in Hk. }
  apply in_order_push. apply in_order_deriveNext; [done|].
  intros s. subst w5. unfold subscribe. cbn [subscriptions].
  rewrite lookup_sub_app, (lookup_sub_fresh [] w4) by done.
  cbn [lookup_sub]. rewrite Nat.eqb_refl. intros [= <-]. by eexists.
Qed.

Lemma in_order_cleanup (l : list nat) (w : World) :
  in_order [] w → in_order [] (foldl (λ w sub, unsubscribe sub w) w l).
Proof.
  revert w. induction l as [|k l IH]; intros w Hw; [done|]. simpl.
  by apply IH, in_order_unsubscribe.
Qed.

Lemma in_order_forceUpdateGroup (w : World) :
  in_order [] w → in_order [] (forceUpdateGroup w).
Proof.
  intros Hw. unfold forceUpdateGroup. cbv zeta. apply in_order_search.
  unread w.
Qed.

Lemma in_order_deliver (e : Event) (w : World) :
  in_order [] w → in_order [] (deliver e w).
Proof.
  intros Hw. destruct e as [sub rd|sub inner index authorized|sub success msg];
    cbn [deliver].
  - destruct (lookup_sub sub (subscriptions w)) as [[| |]|]; try done.
    unfold onGroups. cbv zeta. pose proof (in_order_groups_next rd [] w Hw) as Hnext.
    destruct (payload rd) as [p|]; [|by apply in_order_unsubscribe].
    unread (groups_next rd w).
  - unfold onAuthorized.
    destruct (lookup_sub sub (subscriptions w)) as [[|[running|]|]|] eqn:Hsub; try done.
    destruct (Nat.eqb (inner_id running) inner); [|done]. cbv zeta.
    set (r := composeNext _ _ _ _).
    assert (in_order []
              (set_subscriber sub
                 (DeriveSub (Some {| inner_id := inner_id running;
                                     inner_groups := inner_groups running;
                                     inner_state := r.1 |})) w)) as Hset.
    { apply in_order_set; [done| |].
      - intros s Hs. rewrite Hsub in Hs. injection Hs as <-. by eexists.
      - cbn [inner_id]. destruct Hw as [_ Hall]. rewrite Forall_forall in Hall.
        by destruct (Hall _ (lookup_sub_elem _ _ _ Hsub)) as (_ & _ & ?). }
    destruct r.2 as [value|]; [|done].
    eapply in_order_same; [| | |exact Hset]; reflexivity.
  - destruct (lookup_sub sub (subscriptions w)) as [[| |g]|]; try done.
    apply in_order_unsubscribe. unfold onDeleted. destruct success.
    + apply in_order_forceUpdateGroup. unread w.
    + unread w.
Qed.

Lemma in_order_step (a : Step) (w : World) :
  in_order [] w → in_order [] (step a w).
Proof.
  intros Hw. destruct a; cbn [step].
  - unfold ngOnInit. apply in_order_search. exact Hw.
  - unfold onPageChange. cbv zeta. apply in_order_search. unread w.
  - apply in_order_search. exact Hw.
  - unfold deleteGroup. destruct (hasValue (id g)); [|exact Hw]. cbv zeta.
    apply (in_order_subscribe _ []); [|done..]. unread w.
  - apply in_order_forceUpdateGroup. exact Hw.
  - unfold clearFormAndResetResult. cbv zeta. apply in_order_search.
    unread w.
  - unfold ngOnDestroy, cleanupSubscribes. apply in_order_cleanup. exact Hw.
  - apply in_order_deliver. exact Hw.
Qed.

Lemma in_order_run (steps : list Step) (w : World) :
  in_order [] w → in_order [] (run steps w).
Proof.
  revert w. induction steps as [|a steps IH]; intros w Hw; [done|].
  unfold run. cbn [foldl]. apply IH, in_order_step. exact Hw.
Qed.

Lemma in_order_constructed : in_order [] constructed.
Proof. split; [apply NoDup_nil_2|constructor]. Qed.

(** ** A fetched list reaches the derivation pipelines *)

Lemma flat_map_seq_shift {A : Type} (G : nat → list A) (n s k : nat) :
flat_map (λ j, G (n + j)) (seq (S s) k) = flat_map (λ j, G (S n + j)) (seq s k).
Proof.
revert s. induction k as [|k IH]; intros s; [done|]. cbn [seq flat_map].
rewrite IH. f_equal. f_equal. lia.
Qed.

Section arrival.
Context (rd : RemoteData (PaginatedList (option Group)))
        (groups : PaginatedList (option Group)).
Hypothesis Hsucceeded : hasSucceeded rd = true.
Hypothesis Hpayload : payload rd = Some groups.

Lemma deriveNext_succeeded (sub : nat) (w : World) :
  deriveNext sub rd w
  = set_subscriber sub (DeriveSub (Some (started groups (nextId w))))
      (call_all (isAuthorized_calls (nextId w) (page groups))
         {| comp := comp w; subscriptions := subscriptions w;
            nextId := S (nextId w); calls := calls w; cached := cached w |}).
Proof using Hsucceeded Hpayload. unfold deriveNext. by rewrite Hsucceeded, Hpayload. Qed.

Lemma observers_fold (observers : list nat) (w : World) :
  let w' := foldl (λ w sub, deriveNext sub rd w) w observers in
  comp w' = comp w
  ∧ cached w' = cached w
  ∧ nextId w' = nextId w + length observers
  ∧ calls w'
    = calls w
      ++ flat_map (λ j, isAuthorized_calls (nextId w + j) (page groups))
           (seq 0 (length observers)).
Proof using Hsucceeded Hpayload.
  revert w. induction observers as [|sub observers IH]; intros w; cbn [foldl length].
  - cbn. rewrite app_nil_r. repeat split; lia.
  - cbv zeta in IH. destruct (IH (deriveNext sub rd w)) as (Hcomp & Hheld & Hid & Hcalls).
    rewrite Hcomp, Hheld, Hid, Hcalls, deriveNext_succeeded.
    cbn [set_subscriber with_subscriptions call_all comp cached nextId calls].
    repeat split; [lia|]. rewrite <- (assoc_L (++)). f_equal.
    cbn [seq flat_map]. rewrite Nat.add_0_r. f_equal.
    symmetry.
    exact (flat_map_seq_shift (λ k, isAuthorized_calls k (page groups)) (nextId w) 0
             (length observers)).
Qed.

Lemma observers_lookup (observers : list nat) (sub : nat) (w : World) :
  let w' := foldl (λ w sub, deriveNext sub rd w) w observers in
  (sub ∉ observers →
   lookup_sub sub (subscriptions w') = lookup_sub sub (subscriptions w))
  ∧ (sub ∈ observers →
     lookup_sub sub (subscriptions w') = None
     ∨ ∃ inner, nextId w ≤ inner
                ∧ lookup_sub sub (subscriptions w')
                  = Some (DeriveSub (Some (started groups inner)))).
Proof using Hsucceeded Hpayload.
  revert w. induction observers as [|k observers IH]; intros w; cbn [foldl].
  - split; [done|]. intros Hin. by apply elem_of_nil in Hin.
  - cbv zeta in IH. destruct (IH (deriveNext k rd w)) as [Hout Hin].
    assert (lookup_sub sub (subscriptions (deriveNext k rd w))
            = if Nat.eqb k sub
              then (λ _, DeriveSub (Some (started groups (nextId w))))
                     <$> lookup_sub sub (subscriptions w)
              else lookup_sub sub (subscriptions w)) as Hstep.
    { rewrite deriveNext_succeeded, lookup_sub_set. done. }
    assert (nextId (deriveNext k rd w) = S (nextId w)) as Hid
      by (by rewrite deriveNext_succeeded).
    split.
    + intros [Hne Hnot]%not_elem_of_cons. rewrite (Hout Hnot), Hstep.
      destruct (Nat.eqb_spec k sub); [congruence|done].
    + intros Hsub. destruct (decide (sub ∈ observers)) as [Hlater|Hnot].
      * destruct (Hin Hlater) as [Hnone|(inner & Hinner & Hl)]; [by left|].
        right. exists inner. split; [lia|done].
      * apply elem_of_cons in Hsub as [->|?]; [|done].
        rewrite (Hout Hnot), Hstep, Nat.eqb_refl.
        destruct (lookup_sub k (subscriptions w)); [|by left].
        right. exists (nextId w). split; [lia|done].
Qed.

Lemma groups_next_running (sub : nat) (x : option Inner) (w : World) :
  lookup_sub sub (subscriptions (groups_next rd w)) = Some (DeriveSub x) →
  ∃ inner, nextId w ≤ inner ∧ x = Some (started groups inner).
Proof using Hsucceeded Hpayload.
  unfold groups_next. cbv zeta.
  set (observers := (List.filter is_derive (subscriptions w)).*1).
  destruct (observers_lookup observers sub (set_groups rd w)) as [Hout Hin].
  intros Hx. destruct (decide (sub ∈ observers)) as [Hsub|Hnot].
  - destruct (Hin Hsub) as [Hnone|(inner & Hinner & Hl)]; [congruence|].
    exists inner. split; [done|]. congruence.
  - exfalso. apply Hnot. rewrite (Hout Hnot) in Hx. apply lookup_sub_elem in Hx.
    apply list_elem_of_fmap. exists (sub, DeriveSub x). split; [done|].
    apply list_elem_of_In, filter_In. split; [by apply list_elem_of_In|done].
Qed.
End arrival.

(** ** Teardown, for every course of events *)

Lemma cleanup_elem (e : nat * Subscriber) (l : list nat) (w : World) :
  e ∈ subscriptions (foldl (λ w sub, unsubscribe sub w) w l) → e ∈ subscriptions w.
Proof.
  revert w. induction l as [|k l IH]; intros w He; [done|].
  apply IH in He. unfold unsubscribe, with_subscriptions in He. cbn [subscriptions] in He.
  apply list_elem_of_In, filter_In in He as [He _]. by apply list_elem_of_In.
Qed.

Lemma destroy_leaves_deletions (sub : nat) (s : Subscriber) (w : World) :
  in_order [] w → lookup_sub sub (subscriptions (ngOnDestroy w)) = Some s →
  ∃ g, s = DeleteSub g.
Proof.
  intros [_ Hall] Hs. unfold ngOnDestroy, cleanupSubscribes in Hs.
  pose proof (cleanup_elem _ _ _ (lookup_sub_elem _ _ _ Hs)) as He.
  rewrite Forall_forall in Hall. destruct (Hall _ He) as (_ & Hkept & _).
  cbn [fst snd] in Hkept. rewrite app_nil_r in Hkept.
  destruct s as [| |g]; [| |by exists g];
    rewrite lookup_sub_cleanup in Hs by (by left); done.
Qed.

(** X5: in every course of events, once [ngOnDestroy] has run nothing that
    arrives for a fetch or for an authorization query changes anything: the
    subscriptions of [search] are all kept in [subs] and closed. *)
Theorem destroy_silences_search (steps : list Step) (sub inner index : nat)
    (authorized : bool) (groupsRD : RemoteData (PaginatedList (option Group))) :
  let w := ngOnDestroy (run steps constructed) in
  deliver (GroupsArrive sub groupsRD) w = w
  ∧ deliver (Authorized sub inner index authorized) w = w.
Proof.
  intros w. pose proof (in_order_run steps _ in_order_constructed) as Hw.
  unfold deliver, onAuthorized.
  destruct (lookup_sub sub (subscriptions w)) as [s|] eqn:Hs; [|done].
  destruct (destroy_leaves_deletions _ _ _ Hw Hs) as [g ->]. done.
Qed.

(** ** What a fetched list sets off *)

Lemma length_isAuthorized_calls (inner : nat) (groups : list (option Group)) :
  length (isAuthorized_calls inner groups) = length groups.
Proof. apply length_imap. Qed.

Lemma length_flat_map_seq {A : Type} (G : nat → list A) (n s k : nat) :
  (∀ j, length (G j) = n) → length (flat_map G (seq s k)) = k * n.
Proof.
  intros HG. revert s. induction k as [|k IH]; intros s; [done|].
  cbn [seq flat_map]. rewrite length_app, HG, IH. lia.
Qed.

(** X6: a fetched list is handed to every open derivation pipeline, and
    each of them asks for the authorization of every group: [d] pipelines and
    [n] groups make [d * n] queries. *)
Theorem arrival_queries_per_pipeline (f : nat)
    (rd : RemoteData (PaginatedList (option Group)))
    (groups : PaginatedList (option Group)) (w : World) :
  lookup_sub f (subscriptions w) = Some FetchSub →
  hasSucceeded rd = true → payload rd = Some groups →
  let pipelines := length (List.filter is_derive (subscriptions w)) in
  calls (deliver (GroupsArrive f rd) w)
  = calls w
    ++ flat_map (λ j, isAuthorized_calls (nextId w + j) (page groups)) (seq 0 pipelines)
  ∧ length (calls (deliver (GroupsArrive f rd) w))
    = length (calls w) + pipelines * length (page groups).
Proof.
  intros Hf Hs Hp pipelines.
  assert (calls (deliver (GroupsArrive f rd) w)
          = calls w
            ++ flat_map (λ j, isAuthorized_calls (nextId w + j) (page groups))
                 (seq 0 pipelines)) as Hcalls.
  { unfold deliver. rewrite Hf. unfold onGroups. rewrite Hp. cbv zeta.
    unfold groups_next. cbv zeta.
    destruct (observers_fold rd groups Hs Hp
                (List.filter is_derive (subscriptions w)).*1 (set_groups rd w))
      as (_ & _ & _ & Hfold).
    rewrite length_fmap in Hfold. exact Hfold. }
  split; [done|]. rewrite Hcalls, length_app. f_equal.
  apply length_flat_map_seq. intros j. apply length_isAuthorized_calls.
Qed.

(** X7: once a newer list has arrived, an answer to a query of the list a
    pipeline ran before is dropped. *)
Theorem newer_list_drops_older_answers (steps : list Step) (f sub index : nat)
    (authorized : bool) (rd : RemoteData (PaginatedList (option Group)))
    (groups : PaginatedList (option Group)) (old : Inner) :
  let w := run steps constructed in
  lookup_sub f (subscriptions w) = Some FetchSub →
  lookup_sub sub (subscriptions w) = Some (DeriveSub (Some old)) →
  hasSucceeded rd = true → payload rd = Some groups →
  let w' := deliver (GroupsArrive f rd) w in
  deliver (Authorized sub (inner_id old) index authorized) w' = w'.
Proof.
  intros w Hf Hsub Hs Hp w'.
  pose proof (in_order_run steps _ in_order_constructed) as [_ Hall].
  fold w in Hall. rewrite Forall_forall in Hall.
  destruct (Hall _ (lookup_sub_elem _ _ _ Hsub)) as (_ & _ & Hold). cbn [snd] in Hold.
  assert (w' = set_pageInfoState (pageInfo groups) (groups_next rd w)) as ->.
  { subst w'. unfold deliver. rewrite Hf. unfold onGroups. by rewrite Hp. }
  unfold deliver, onAuthorized.
  change (subscriptions (set_pageInfoState (pageInfo groups) (groups_next rd w)))
    with (subscriptions (groups_next rd w)).
  destruct (lookup_sub sub (subscriptions (groups_next rd w))) as [s|] eqn:Hnew;
    [|reflexivity].
  destruct s as [|x|g]; [reflexivity| |reflexivity].
  destruct (groups_next_running rd groups Hs Hp _ _ _ Hnew) as (inner & Hinner & ->).
  cbn [started inner_id].
  destruct (Nat.eqb_spec inner (inner_id old)) as [Heq|]; [lia|done].
Qed.

Lemma arrival_queries_per_pipeline_witness :
  let g1 := Some {| id := Js.Str "1"; name := Js.Str "Administrator"; self := Js.Str "/groups/1" |} in
  let g2 := Some {| id := Js.Str "2"; name := Js.Str "Anonymous"; self := Js.Str "/groups/2" |} in
  let groups :=
    {| pageInfo := {| pi_currentPage := 2; pi_pageSize := 5; pi_totalElements := 7 |};
       page := [g1; g2] |} in
  let rd := {| hasSucceeded := true; payload := Some groups |} in
  let w := run [NgOnInit; OnPageChange 2] constructed in
  length (calls (deliver (GroupsArrive 2 rd) w)) = length (calls w) + 2 * 2.
Proof.
  intros g1 g2 groups rd w.
  by destruct (arrival_queries_per_pipeline 2 rd groups w eq_refl eq_refl eq_refl).
Defined.

Lemma newer_list_drops_older_answers_witness :
  let g1 := Some {| id := Js.Str "1"; name := Js.Str "Administrator"; self := Js.Str "/groups/1" |} in
  let groups :=
    {| pageInfo := {| pi_currentPage := 1; pi_pageSize := 5; pi_totalElements := 1 |};
       page := [g1] |} in
  let rd := {| hasSucceeded := true; payload := Some groups |} in
  let w := run [NgOnInit; Deliver (GroupsArrive 0 rd)] constructed in
  let w' := deliver (GroupsArrive 0 rd) w in
  deliver (Authorized 1 2 0 true) w' = w'.
Proof.
  intros g1 groups rd w w'.
  exact (newer_list_drops_older_answers [NgOnInit; Deliver (GroupsArrive 0 rd)]
           0 1 0 true rd groups (started groups 2) eq_refl eq_refl eq_refl eq_refl).
Defined.

(** ** An empty page *)

Lemma flat_map_nil {A B : Type} (G : A → list B) (l : list A) :
  (∀ x, G x = []) → flat_map G l = [].
Proof. intros HG. induction l as [|x l IH]; [done|]. cbn. by rewrite HG, IH. Qed.

Lemma idle_onAuthorized (sub inner index : nat) (authorized : bool) (w : World) :
  idle w →
  idle (deliver (Authorized sub inner index authorized) w)
  ∧ comp (deliver (Authorized sub inner index authorized) w) = comp w.
Proof.
  intros Hidle. unfold deliver, onAuthorized.
  destruct (lookup_sub sub (subscriptions w)) as [s|] eqn:Hs; [|done].
  destruct s as [|[running|]|g]; try done.
  destruct (Nat.eqb (inner_id running) inner); [|done].
  destruct (Hidle _ _ Hs) as (r & [= <-] & Hpage).
  unfold composeNext. rewrite Hpage. cbn [lookup fst snd]. rewrite lookup_nil.
  cbn [fst snd]. split; [|done].
  intros k x. rewrite lookup_sub_set. destruct (Nat.eqb sub k); [|apply Hidle].
  destruct (lookup_sub k (subscriptions w)); [|done]. intros [= <-]. by eexists.
Qed.

(** X8: a fetched list with an empty page replaces groups$ and
    pageInfoState$, asks for no authorization, and leaves groupsDto$ as it
    was, whatever answers arrive afterwards. *)
Theorem empty_page_keeps_previous_dtos (f : nat)
    (rd : RemoteData (PaginatedList (option Group))) (info : PageInfo)
    (answers : list (nat * nat * nat * bool)) (w : World) :
  lookup_sub f (subscriptions w) = Some FetchSub →
  hasSucceeded rd = true → payload rd = Some {| pageInfo := info; page := [] |} →
  let w' := deliver (GroupsArrive f rd) w in
  let later :=
    foldl (λ w a, deliver (Authorized a.1.1.1 a.1.1.2 a.1.2 a.2) w) w' answers in
  groups_s (comp later) = rd
  ∧ pageInfoState_s (comp later) = Some info
  ∧ groupsDto_s (comp later) = groupsDto_s (comp w)
  ∧ calls later = calls w.
Proof.
  intros Hf Hs Hp w' later.
  set (groups := {| pageInfo := info; page := [] |}) in *.
  assert (w' = set_pageInfoState info (groups_next rd w)) as Hw'.
  { subst w'. unfold deliver. rewrite Hf. unfold onGroups. by rewrite Hp. }
  destruct (observers_fold rd groups Hs Hp
              (List.filter is_derive (subscriptions w)).*1 (set_groups rd w))
    as (Hcomp & _ & _ & Hcalls).
  assert (idle w') as Hidle.
  { intros sub x Hx. rewrite Hw' in Hx.
    destruct (groups_next_running rd groups Hs Hp _ _ _ Hx) as (inner & _ & ->).
    by eexists. }
  assert (comp later = comp w' ∧ calls later = calls w') as [Hlater Hquiet].
  { subst later. clear Hw'. revert Hidle. generalize w'. clear w'.
    induction answers as [|a answers IH]; intros w' Hidle; [done|]. cbn [foldl].
    destruct (idle_onAuthorized a.1.1.1 a.1.1.2 a.1.2 a.2 w' Hidle) as [Hidle' Hsame].
    destruct (IH _ Hidle') as [-> ->]. split; [done|].
    unfold deliver, onAuthorized.
    destruct (lookup_sub a.1.1.1 (subscriptions w')) as [[|[running|]|]|] eqn:Hl;
      try reflexivity.
    destruct (Nat.eqb (inner_id running) a.1.1.2); [|reflexivity].
    destruct (Hidle _ _ Hl) as (r & [= <-] & Hpage).
    unfold composeNext. rewrite Hpage. reflexivity. }
  rewrite Hlater, Hquiet, Hw'. unfold set_pageInfoState, with_comp, groups_next.
  cbv zeta. cbn [comp calls groups_s pageInfoState_s groupsDto_s].
  rewrite Hcomp, Hcalls. repeat split.
  rewrite flat_map_nil; [apply app_nil_r|done].
Qed.

Lemma empty_page_keeps_previous_dtos_witness :
  let g1 := Some {| id := Js.Str "1"; name := Js.Str "Administrator"; self := Js.Str "/groups/1" |} in
  let info1 := {| pi_currentPage := 1; pi_pageSize := 5; pi_totalElements := 1 |} in
  let info0 := {| pi_currentPage := 1; pi_pageSize := 5; pi_totalElements := 0 |} in
  let one := {| hasSucceeded := true;
                payload := Some {| pageInfo := info1; page := [g1] |} |} in
  let none := {| hasSucceeded := true;
                 payload := Some {| pageInfo := info0; page := [] |} |} in
  let w := run [NgOnInit; Deliver (GroupsArrive 0 one); Deliver (Authorized 1 2 0 true)]
             constructed in
  let later :=
    foldl (λ w a, deliver (Authorized a.1.1.1 a.1.1.2 a.1.2 a.2) w)
      (deliver (GroupsArrive 0 none) w) [(1, 3, 0, false)] in
  pageInfoState_s (comp later) = Some info0
  ∧ groupsDto_s (comp later)
    = Some {| pageInfo := info1;
              page := [Some {| ableToDelete := true; group := g1 |}] |}.
Proof.
  intros g1 info1 info0 one none w later.
  assert (lookup_sub 0 (subscriptions w) = Some FetchSub) as Hopen
    by (vm_compute; reflexivity).
  assert (groupsDto_s (comp w)
          = Some {| pageInfo := info1;
                    page := [Some {| ableToDelete := true; group := g1 |}] |}) as Hbefore
    by (vm_compute; reflexivity).
  destruct (empty_page_keeps_previous_dtos 0 none info0 [(1, 3, 0, false)] w
              Hopen eq_refl eq_refl) as (_ & Hinfo & Hdto & _).
  split; [exact Hinfo|]. exact (eq_trans Hdto Hbefore).
Defined.

(** ** An answer that has not succeeded *)

Lemma observers_unsucceeded (rd : RemoteData (PaginatedList (option Group)))
    (observers : list nat) (w : World) :
  hasSucceeded rd = false → foldl (λ w sub, deriveNext sub rd w) w observers = w.
Proof.
  intros Hs. induction observers as [|sub observers IH]; [done|]. cbn [foldl].
  unfold deriveNext at 2. by rewrite Hs.
Qed.

(** X9: an answer that has not succeeded (and carries a payload) replaces
    groups$ and pageInfoState$ and nothing else: no authorization query, no
    new DTO list, the subscriptions as they were. *)
Theorem unsucceeded_answer_leaves_dtos (f : nat)
    (rd : RemoteData (PaginatedList (option Group)))
    (p : PaginatedList (option Group)) (w : World) :
  lookup_sub f (subscriptions w) = Some FetchSub →
  hasSucceeded rd = false → payload rd = Some p →
  deliver (GroupsArrive f rd) w = set_pageInfoState (pageInfo p) (set_groups rd w).
Proof.
  intros Hf Hs Hp. unfold deliver. rewrite Hf. unfold onGroups. rewrite Hp. cbv zeta.
  unfold groups_next. cbv zeta. by rewrite observers_unsucceeded.
Qed.

Lemma unsucceeded_answer_leaves_dtos_witness :
  let info := {| pi_currentPage := 1; pi_pageSize := 5; pi_totalElements := 0 |} in
  let rd := {| hasSucceeded := false; payload := Some {| pageInfo := info; page := [] |} |} in
  deliver (GroupsArrive 0 rd) (ngOnInit constructed)
  = set_pageInfoState info (set_groups rd (ngOnInit constructed)).
Proof.
  intros info rd.
  exact (unsucceeded_answer_leaves_dtos 0 rd _ (ngOnInit constructed)
           eq_refl eq_refl eq_refl).
Defined.

(** ** deleteGroup: one answer *)

(** X10: only the first answer to a deletion is handled; a second one
    changes nothing. *)
Theorem delete_answer_only_once (g : Group) (sub : nat) (first second : bool)
    (msg msg' : Js.value) (w : World) :
  lookup_sub sub (subscriptions w) = Some (DeleteSub g) →
  deliver (Deleted sub second msg') (deliver (Deleted sub first msg) w)
  = deliver (Deleted sub first msg) w.
Proof.
  intros Hopen. pose proof (delete_answer_once g sub first msg w Hopen) as Hclosed.
  unfold deliver at 1. by rewrite Hclosed.
Qed.

Lemma delete_answer_only_once_witness :
  let g := {| id := Js.Str "7"; name := Js.Str "Editors"; self := Js.Str "/groups/7" |} in
  let w := deleteGroup g (ngOnInit constructed) in
  deliver (Deleted 2 true Js.Undefined) (deliver (Deleted 2 false (Js.Str "busy")) w)
  = deliver (Deleted 2 false (Js.Str "busy")) w.
Proof.
  intros g w.
  exact (delete_answer_only_once g 2 false true (Js.Str "busy") Js.Undefined w eq_refl).
Defined.

(** ** search keeps what is open *)

Lemma map_set_fresh (sub : nat) (s : Subscriber) (l : list (nat * Subscriber)) :
  Forall (λ e, e.1 ≠ sub) l →
  List.map (λ e, if Nat.eqb e.1 sub then (e.1, s) else e) l = l.
Proof.
  induction 1 as [|e l He _ IH]; [done|]. cbn [List.map]. rewrite IH.
  by destruct (Nat.eqb_spec e.1 sub).
Qed.

Lemma filter_unsub_fresh (sub : nat) (l : list (nat * Subscriber)) :
  Forall (λ e, e.1 ≠ sub) l → List.filter (λ e, negb (Nat.eqb e.1 sub)) l = l.
Proof.
  induction 1 as [|e l He _ IH]; [done|]. cbn [List.filter]. rewrite IH.
  by destruct (Nat.eqb_spec e.1 sub).
Qed.

Lemma search_subscriptions (query : Js.value) (w : World) :
  in_order [] w →
  subscriptions (search query w)
  = subscriptions w ++ [(nextId w, FetchSub)]
    ++ (if hasSucceeded (groups_s (comp w))
        then match payload (groups_s (comp w)) with
             | Some groups =>
                 [(S (nextId w), DeriveSub (Some (started groups (S (S (nextId w))))))]
             | None => []
             end
        else [(S (nextId w), DeriveSub None)]).
Proof.
  intros [_ Hall].
  assert (Forall (λ e, e.1 ≠ S (nextId w)) (subscriptions w)) as Hfresh.
  { eapply Forall_impl; [exact Hall|]. intros e [Hlt _]. lia. }
  assert (Nat.eqb (nextId w) (S (nextId w)) = false) as Hnext
    by (apply Nat.eqb_neq; lia).
  unfold search.
  destruct (Js.not_nullish query && Js.strict_ne (currentSearchQuery (comp w)) query);
    cbn -[Js.trim]; unfold searchGroups; cbn -[Js.trim];
    destruct (bool_decide _); cbn -[Js.trim]; unfold deriveNext;
    destruct (hasSucceeded (groups_s (comp w)));
    destruct (payload (groups_s (comp w))); cbn -[Js.trim];
    rewrite ?List.map_app, ?List.filter_app; cbn [List.map List.filter fst];
    rewrite ?Hnext, ?Nat.eqb_refl; cbn [negb];
    rewrite ?map_set_fresh, ?filter_unsub_fresh by exact Hfresh;
    rewrite <- ?(assoc_L (++)), ?app_nil_r; reflexivity.
Qed.

(** X11: in every course of events [search] leaves what is open as it is
    and adds its own: the fetch, and after it at most one derivation
    pipeline; both ids go to [subs]. *)
Theorem search_keeps_subscriptions_open (steps : list Step) (query : Js.value) :
  let w := run steps constructed in
  ∃ derivation,
    subscriptions (search query w)
    = subscriptions w ++ [(nextId w, FetchSub)] ++ derivation
    ∧ subs (comp (search query w)) = subs (comp w) ++ [nextId w; S (nextId w)]
    ∧ (derivation = []
       ∨ ∃ x, derivation = [(S (nextId w), DeriveSub x)]).
Proof.
  intros w. pose proof (in_order_run steps _ in_order_constructed) as Hw. fold w in Hw.
  eexists. split; [by apply search_subscriptions|]. split.
  - unfold search.
    destruct (Js.not_nullish query && Js.strict_ne (currentSearchQuery (comp w)) query);
      cbn -[Js.trim]; unfold searchGroups; cbn -[Js.trim];
      destruct (bool_decide _); cbn -[Js.trim]; unfold deriveNext;
      destruct (hasSucceeded (groups_s (comp w)));
      destruct (payload (groups_s (comp w))); cbn -[Js.trim];
      by rewrite <- (assoc_L (++)).
  - destruct (hasSucceeded (groups_s (comp w))); [|right; by eexists].
    destruct (payload (groups_s (comp w))); [right; by eexists|by left].
Qed.

Lemma onAuthorized_compose_witness :
  let g1 := Some {| id := Js.Str "1"; name := Js.Str "Administrator"; self := Js.Str "/groups/1" |} in
  let g2 := Some {| id := Js.Str "2"; name := Js.Str "Anonymous"; self := Js.Str "/groups/2" |} in
  let info := {| pi_currentPage := 1; pi_pageSize := 5; pi_totalElements := 2 |} in
  let groups := {| pageInfo := info; page := [g1; g2] |} in
  let rd := {| hasSucceeded := true; payload := Some groups |} in
  let w := run [NgOnInit; Deliver (GroupsArrive 0 rd)] constructed in
  groupsDto_s
    (comp (foldl (λ w a, deliver (Authorized 1 2 a.1 a.2) w) w
             [(1, true); (0, false); (1, false)]))
  = Some {| pageInfo := info;
            page := [Some {| ableToDelete := false; group := g1 |};
                     Some {| ableToDelete := false; group := g2 |}] |}.
Proof.
  intros g1 g2 info groups rd w.
  assert (lookup_sub 1 (subscriptions w) = Some (DeriveSub (Some (started groups 2))))
    as Hrunning by (vm_compute; reflexivity).
  pose proof (onAuthorized_compose 1 (started groups 2)
                [(1, true); (0, false); (1, false)] w Hrunning) as Hlast.
  cbv zeta in Hlast. cbn [started inner_id inner_groups inner_state] in Hlast.
  etrans; [exact Hlast|]. vm_compute. reflexivity.
Defined.

(** ** The RSS route of the component's own routes *)

Lemma get_append_l (a b : string) (i : nat) :
  i < String.length a → String.get i (a +:+ b) = String.get i a.
Proof.
  revert i. induction a as [|c a IH]; intros i Hi; simpl in *; [lia|].
  destruct i as [|i]; [done|]. apply IH. lia.
Qed.

Lemma get_append_r (a b : string) (i : nat) :
  String.get (String.length a + i) (a +:+ b) = String.get i b.
Proof. induction a as [|c a IH]; simpl; done. Qed.

Lemma take_append_ge (a b : string) (n : nat) :
  Js.take (String.length a + n) (a +:+ b) = a +:+ Js.take n b.
Proof. induction a as [|c a IH]; simpl; [done|]. by rewrite IH. Qed.

Lemma occurs_at_prefix (pat x y : string) (k : nat) :
  Js.occurs_at pat (x +:+ y) k → k + String.length pat ≤ String.length x →
  Js.occurs_at pat x k.
Proof.
  intros (pre & post & Heq & <-) Hfit.
  set (n := String.length x - (String.length pre + String.length pat)).
  assert (String.length x = String.length (pre +:+ pat) + n) as Hx
    by (rewrite length_append; lia).
  exists pre, (Js.take n post). split; [|done].
  transitivity (Js.take (String.length x) (x +:+ y)); [by rewrite take_append|].
  by rewrite Heq, Hx, <- append_assoc, take_append_ge, append_assoc.
Qed.

Lemma get_format_atom (i : nat) : String.get i "format=atom" ≠ String.get 0 "?".
Proof. do 11 (destruct i as [|i]; [discriminate|]). discriminate. Qed.

(** An occurrence of "format=atom" cannot run over a question mark. *)
Lemma first_format_atom (a tail : string) :
  Js.indexOf "format=atom" (a +:+ "?") = None →
  ∀ k, Js.occurs_at "format=atom" ((a +:+ "?") +:+ "format=atom" +:+ tail) k →
       String.length (a +:+ "?") ≤ k.
Proof.
  intros Hnone k Hocc. destruct (decide (String.length (a +:+ "?") ≤ k)) as [|Hshort]; [done|].
  exfalso. rewrite length_append in Hshort. cbn [String.length] in Hshort.
  destruct (decide (k + 11 ≤ String.length a + 1)) as [Hfit|Hover].
  - apply (indexOf_None _ _ Hnone k). eapply occurs_at_prefix; [exact Hocc|].
    rewrite length_append. cbn [String.length]. lia.
  - destruct Hocc as (pre & post & Heq & <-).
    assert (String.get (String.length a) ((a +:+ "?") +:+ "format=atom" +:+ tail)
            = String.get 0 "?") as Hq.
    { rewrite append_assoc. rewrite <- (Nat.add_0_r (String.length a)).
      by rewrite get_append_r. }
    rewrite Heq in Hq.
    replace (String.length a)
      with (String.length pre + (String.length a - String.length pre)) in Hq by lia.
    rewrite get_append_r, get_append_l in Hq by (cbn [String.length]; lia).
    by apply get_format_atom in Hq.
Qed.

Lemma formulateRoute_segments (uuid opensearch query : Js.value) (sort : Rss.SortOptions) :
  Rss.formulateRoute uuid opensearch sort query
  = ("/" +:+ Js.to_string opensearch +:+ "/search?") +:+ "format=atom"
      +:+ Rss.scope_segment uuid +:+ Rss.sort_segment sort
      +:+ "&query=" +:+ Rss.query_param query.
Proof.
  unfold Rss.formulateRoute, Rss.scope_segment, Rss.sort_segment, Rss.query_param.
  destruct (Js.truthy uuid), (Js.truthy (Rss.direction sort)),
    (Js.truthy (Rss.field sort)), (Js.truthy query); simpl;
    rewrite ?append_assoc; simpl; rewrite ?append_assoc; reflexivity.
Qed.

(** X12: when "format=atom" occurs nowhere in the base URL and the service
    context, the two feed links the component adds differ in the format
    parameter only, whatever the scope, the sort and the query are. *)
Theorem onSort_rss_href (baseUrl : string) (found url query : Js.value)
    (sort : Rss.SortOptions) (st : Rss.State) :
  let service := baseUrl +:+ "/" +:+ Js.to_string url +:+ "/search" in
  let tail :=
    Rss.scope_segment found +:+ Rss.sort_segment sort
      +:+ "&query=" +:+ Rss.query_param query in
  Js.indexOf "format=atom" (service +:+ "?") = None →
  Rss.head (Rss.onSort baseUrl found url query sort st)
  = Rss.head st
    ++ [Rss.link (service +:+ "?format=atom" +:+ tail)
          "application/atom+xml" "alternate" "Sitewide Atom feed";
        Rss.link (service +:+ "?format=rss" +:+ tail)
          "application/rss+xml" "alternate" "Sitewide RSS feed";
        Rss.search_tag baseUrl url].
Proof.
  intros service tail Hnone. rewrite head_onSort. cbv zeta.
  assert (baseUrl +:+ Rss.formulateRoute found url sort query
          = (service +:+ "?") +:+ "format=atom" +:+ tail) as Hroute.
  { rewrite formulateRoute_segments. subst service tail.
    rewrite !append_assoc. simpl. rewrite ?append_assoc. reflexivity. }
  rewrite Hroute, replace_first by (by apply first_format_atom).
  do 2 f_equal; [|f_equal]; f_equal; rewrite !append_assoc; reflexivity.
Qed.

Lemma onSort_rss_href_witness :
  Rss.head (Rss.onSort "http://h/server" (Js.Str "abc") (Js.Str "opensearch")
              (Js.Str "format=atom")
              {| Rss.field := Js.Undefined; Rss.direction := Js.Undefined |}
              (Rss.initial []))
  = [Rss.link "http://h/server/opensearch/search?format=atom&scope=abc&query=format=atom"
       "application/atom+xml" "alternate" "Sitewide Atom feed";
     Rss.link "http://h/server/opensearch/search?format=rss&scope=abc&query=format=atom"
       "application/rss+xml" "alternate" "Sitewide RSS feed";
     Rss.search_tag "http://h/server" (Js.Str "opensearch")].
Proof.
  exact (onSort_rss_href "http://h/server" (Js.Str "abc") (Js.Str "opensearch")
           (Js.Str "format=atom")
           {| Rss.field := Js.Undefined; Rss.direction := Js.Undefined |}
           (Rss.initial []) eq_refl).
Defined.

(** ** Sort changes and the head *)

Lemma head_ngOnDestroy (st : Rss.State) :
  Rss.head (Rss.ngOnDestroy st)
  = List.filter (λ tag, negb (Rss.is_alternate tag)) (Rss.head st).
Proof. reflexivity. Qed.

(** X13: every sort that arrives adds three tags; the teardown takes the
    feed links away again and leaves one search tag for each of them. *)
Theorem search_tags_pile_up (baseUrl : string)
    (emissions : list (Js.value * Js.value * Js.value * Rss.SortOptions))
    (st : Rss.State) :
  let activated :=
    foldl (λ st e, Rss.onSort baseUrl e.1.1.1 e.1.1.2 e.1.2 e.2 st) st emissions in
  length (Rss.head activated) = length (Rss.head st) + 3 * length emissions
  ∧ Rss.head (Rss.ngOnDestroy activated)
    = Rss.head (Rss.ngOnDestroy st)
      ++ List.map (λ e, Rss.search_tag baseUrl e.1.1.2) emissions.
Proof.
  revert st. induction emissions as [|e emissions IH]; intros st; cbn [foldl].
  - cbn. rewrite app_nil_r. split; [lia|done].
  - cbv zeta in IH. destruct (IH (Rss.onSort baseUrl e.1.1.1 e.1.1.2 e.1.2 e.2 st))
      as [Hlen Hhead].
    rewrite Hlen, Hhead, !head_ngOnDestroy, head_onSort, length_app.
    split; [cbn [length]; lia|].
    rewrite List.filter_app. unfold Rss.search_tag at 1. cbn [List.filter List.map].
    rewrite !is_alternate_link. cbn. by rewrite <- (assoc_L (++)).
Qed.
